(** * media-organizer: a shallow embedding of the processing-and-caching core

    The Go sources embedded here are [core_types.go], [core_dedup.go],
    [core_scanner.go], [core_organizer.go] (organizer and cache) and the
    command-line driver ([runCLI]).  All Go code lives in [package main];
    the embedding keeps that flat name space and puts only the models of
    the Go standard library ([strings], [path/filepath], [sort], [time])
    into modules of their own. *)

From Stdlib Require Import ZArith List String Ascii Bool Lia Permutation Sorted.
From Stdlib Require Import OrdersEx DecimalString.
From stdpp Require Import gmap strings list fin_maps.

Local Open Scope string_scope.
Local Open Scope Z_scope.

(* ===================================================================== *)
(** ** Models of the Go standard library used by the sources            *)
(* ===================================================================== *)

(** Go strings are byte sequences; [string] (a list of [ascii], i.e. of
    bytes) is exactly that. *)

Module gostrings.

(** [strings.HasPrefix(s, prefix)] *)
Definition HasPrefix (s pre : string) : bool := String.prefix pre s.

(** [strings.Contains(s, substr)]: some suffix of [s] starts with [substr]. *)
Fixpoint Contains (s substr : string) : bool :=
  String.prefix substr s ||
  match s with
  | EmptyString => false
  | String _ s' => Contains s' substr
  end.

(** [strings.HasSuffix(s, suffix)] *)
Fixpoint HasSuffix (s suf : string) : bool :=
  String.eqb s suf ||
  match s with
  | EmptyString => false
  | String _ s' => HasSuffix s' suf
  end.

(** Drop the first [n] bytes. *)
Fixpoint drop (n : nat) (s : string) : string :=
  match n, s with
  | O, _ => s
  | S n', String _ s' => drop n' s'
  | S _, EmptyString => EmptyString
  end.

(** [strings.Cut(s, sep)]: the text before and after the first (leftmost)
    occurrence of [sep], or [None] when [sep] does not occur. *)
Fixpoint Cut (s sep : string) : option (string * string) :=
  if String.prefix sep s then Some (EmptyString, drop (String.length sep) s)
  else match s with
       | EmptyString => None
       | String c s' =>
           match Cut s' sep with
           | Some (before, after) => Some (String c before, after)
           | None => None
           end
       end.

(** [strings.SplitN(s, sep, 2)] for a non-empty [sep]: at most two
    pieces, split at the first occurrence of [sep]. *)
Definition SplitN2 (s sep : string) : list string :=
  match Cut s sep with
  | Some (before, after) => [before; after]
  | None => [s]
  end.

(** [strings.ReplaceAll(s, old, "")] for a non-empty [old]: the
    non-overlapping occurrences of [old] are removed from left to right.
    [fuel] bounds the number of bytes still to scan. *)
Fixpoint RemoveAll_fuel (fuel : nat) (s old : string) : string :=
  match fuel with
  | O => s
  | S fuel' =>
      if String.prefix old s then RemoveAll_fuel fuel' (drop (String.length old) s) old
      else match s with
           | EmptyString => EmptyString
           | String c s' => String c (RemoveAll_fuel fuel' s' old)
           end
  end.

Definition RemoveAll (s old : string) : string :=
  match old with
  | EmptyString => s
  | _ => RemoveAll_fuel (S (String.length s)) s old
  end.

(** The ASCII white space of [unicode.IsSpace]. *)
Definition isSpace (c : ascii) : bool :=
  let n := nat_of_ascii c in
  (Nat.eqb n 32 || (Nat.leb 9 n && Nat.leb n 13))%bool.

Fixpoint TrimLeft (s : string) : string :=
  match s with
  | String c s' => if isSpace c then TrimLeft s' else s
  | EmptyString => EmptyString
  end.

Definition rev_string (s : string) : string :=
  string_of_list_ascii (List.rev (list_ascii_of_string s)).

(** [strings.TrimSpace] on the ASCII white space. *)
Definition TrimSpace (s : string) : string :=
  rev_string (TrimLeft (rev_string (TrimLeft s))).

(** [strings.ToLower] on ASCII letters; other bytes are kept. *)
Definition lower (c : ascii) : ascii :=
  let n := nat_of_ascii c in
  if (Nat.leb 65 n && Nat.leb n 90)%bool then ascii_of_nat (n + 32) else c.

Fixpoint ToLower (s : string) : string :=
  match s with
  | EmptyString => EmptyString
  | String c s' => String (lower c) (ToLower s')
  end.

(** [strings.Join(elems, sep)] *)
Definition Join (elems : list string) (sep : string) : string :=
  String.concat sep elems.

(** [strings.Split(s, "/")]: the pieces between the slashes. *)
Fixpoint SplitSlash (s : string) : list string :=
  match s with
  | EmptyString => [EmptyString]
  | String c s' =>
      if Ascii.eqb c "/" then EmptyString :: SplitSlash s'
      else match SplitSlash s' with
           | p :: ps => String c p :: ps
           | [] => [String c EmptyString]
           end
  end.

End gostrings.

(** [path/filepath] on a Unix system (separator [/], no volume names). *)
Module filepath.

Definition isSlash (c : ascii) : bool := Ascii.eqb c "/".

(** One step of the loop of [Clean]: [reals] are the elements that a
    later [..] may remove (last one first), [ups] counts the leading
    [..] elements of a relative path that nothing can remove. *)
Definition clean_step (rooted : bool) (st : list string * nat) (seg : string)
  : list string * nat :=
  let '(reals, ups) := st in
  if String.eqb seg "" then st
  else if String.eqb seg "." then st
  else if String.eqb seg ".." then
    match reals with
    | _ :: reals' => (reals', ups)
    | [] => if rooted then st else ([], S ups)
    end
  else (seg :: reals, ups).

(** [filepath.Clean] *)
Definition Clean (path : string) : string :=
  match path with
  | EmptyString => "."
  | String c _ =>
      let rooted := isSlash c in
      let '(reals, ups) :=
        fold_left (clean_step rooted) (gostrings.SplitSlash path) ([], O) in
      let elems := (List.repeat ".." ups ++ List.rev reals)%list in
      if rooted then "/" ++ gostrings.Join elems "/"
      else match elems with
           | [] => "."
           | _ => gostrings.Join elems "/"
           end
  end.

Fixpoint dropEmpty (elem : list string) : list string :=
  match elem with
  | e :: rest => if String.eqb e "" then dropEmpty rest else elem
  | [] => []
  end.

(** [filepath.Join]: the first non-empty element and all that follow
    are joined by slashes and cleaned; no non-empty element gives "". *)
Definition Join (elem : list string) : string :=
  match dropEmpty elem with
  | [] => ""
  | es => Clean (gostrings.Join es "/")
  end.

Fixpoint dropWhile (p : ascii -> bool) (l : list ascii) : list ascii :=
  match l with
  | c :: l' => if p c then dropWhile p l' else l
  | [] => []
  end.

Fixpoint takeWhile (p : ascii -> bool) (l : list ascii) : list ascii :=
  match l with
  | c :: l' => if p c then c :: takeWhile p l' else []
  | [] => []
  end.

(** [filepath.Dir]: everything up to and including the last slash,
    cleaned. *)
Definition Dir (path : string) : string :=
  let r := List.rev (list_ascii_of_string path) in
  Clean (string_of_list_ascii (List.rev (dropWhile (fun c => negb (isSlash c)) r))).

(** [filepath.Base]: the last element, after trailing slashes are
    stripped. *)
Definition Base (path : string) : string :=
  match path with
  | EmptyString => "."
  | _ =>
      let r := dropWhile isSlash (List.rev (list_ascii_of_string path)) in
      match r with
      | [] => "/"
      | _ => string_of_list_ascii (List.rev (takeWhile (fun c => negb (isSlash c)) r))
      end
  end.

(** The loop of [filepath.Ext], run over the reversed path: [acc] is the
    text already passed, in path order. *)
Fixpoint ext_scan (r : list ascii) (acc : list ascii) : string :=
  match r with
  | [] => ""
  | c :: r' =>
      if isSlash c then ""
      else if Ascii.eqb c "." then string_of_list_ascii (c :: acc)
      else ext_scan r' (c :: acc)
  end.

(** [filepath.Ext]: the suffix from the last dot of the last element. *)
Definition Ext (path : string) : string :=
  ext_scan (List.rev (list_ascii_of_string path)) [].

End filepath.

(** [sort.Slice]: Go sorts short slices (fewer than 12 elements) by the
    insertion sort below and longer ones by pattern-defeating quicksort.
    Both leave a permutation of the input in which no element is [less]
    than an earlier one; the facts proved about callers are stated a
    second time for any such result ([sort_result]). *)
Module gosort.
Section Slice.
Context {A : Type} (less : A -> A -> bool).

(** The inner loop of [insertionSortLessFunc]: [x] moves left past
    every element it is [less] than.  [sorted_rev] is the part of the
    slice already sorted, last element first. *)
Fixpoint insert_left (x : A) (sorted_rev : list A) : list A :=
  match sorted_rev with
  | [] => [x]
  | y :: rest => if less x y then y :: insert_left x rest else x :: sorted_rev
  end.

Definition Slice (data : list A) : list A :=
  List.rev (fold_left (fun acc x => insert_left x acc) data []).

(** What any correct sort leaves behind. *)
Definition sort_result (data out : list A) : Prop :=
  Permutation data out /\
  StronglySorted (fun a b => less b a = false) out.
End Slice.
End gosort.

(** [time.Time] as the pair that [Unix()] and [Nanosecond()] read; the
    calendar functions are those of the UTC location. *)
Module gotime.

Record Time := mkTime { sec : Z; nsec : Z }.

(** [t.Unix()] *)
Definition Unix_of (t : Time) : Z := sec t.

(** [time.Unix(s, 0)] *)
Definition Unix (s : Z) : Time := mkTime s 0.

(** [t.Before(u)] *)
Definition Before (t u : Time) : bool :=
  (sec t <? sec u) || ((sec t =? sec u) && (nsec t <? nsec u)).

(** Year and month of the proleptic Gregorian calendar for a number of
    days since 1970-01-01. *)
Definition civil (days : Z) : Z * Z :=
  let z := days + 719468 in
  let era := z / 146097 in
  let doe := z - era * 146097 in
  let yoe := (doe - doe / 1460 + doe / 36524 - doe / 146096) / 365 in
  let doy := doe - (365 * yoe + yoe / 4 - yoe / 100) in
  let mp := (5 * doy + 2) / 153 in
  let m := if mp <? 10 then mp + 3 else mp - 9 in
  let y := yoe + era * 400 in
  (if m <=? 2 then y + 1 else y, m).

(** [t.Year()] *)
Definition Year (t : Time) : Z := fst (civil (sec t / 86400)).

Definition Month (t : Time) : Z := snd (civil (sec t / 86400)).

(** [%d] of [fmt.Sprintf] *)
Definition itoa (z : Z) : string := NilZero.string_of_int (Z.to_int z).

(** A number written with at least [width] digits, as [Format] does. *)
Definition pad (width : nat) (z : Z) : string :=
  let digits := itoa (Z.abs z) in
  let zeros := string_of_list_ascii
                 (List.repeat "0"%char (width - String.length digits)) in
  (if z <? 0 then "-" else "") ++ zeros ++ digits.

(** [t.Format("2006-01")] *)
Definition Format_2006_01 (t : Time) : string :=
  pad 4 (Year t) ++ "-" ++ pad 2 (Month t).

End gotime.

(* ===================================================================== *)
(** ** core_types.go                                                     *)
(* ===================================================================== *)

Inductive MediaType := TypePhoto | TypeVideo | TypeMusic | TypeUnknown.

(** The structs have fields of the same name ([Path], [Hash], [Files],
    ...), so each struct is a module with its record [t]. *)
Module MediaFile.
Record t := mk {
  Path : string;
  Size : Z;                          (* int64 *)
  Hash : string;
  Type_ : MediaType;
  DateTaken : option gotime.Time;    (* *time.Time, nil = None *)
  CameraMake : string;
  CameraModel : string;
  Artist : string;
  Album : string;
  Title : string;
  Width : Z;
  Height : Z;
  IsNew : bool
}.
End MediaFile.

Module Album.
Record t := mk {
  Name : string;
  Destination : string;
  Files : list MediaFile.t;
  SourceDirs : list string;
  Date : option gotime.Time;
  Type_ : MediaType
}.
End Album.

Module DuplicateGroup.
Record t := mk {
  Hash : string;
  Files : list MediaFile.t;
  Best : MediaFile.t
}.
End DuplicateGroup.

Module Config.
Record t := mk {
  ScanPath : string;
  LibraryBase : string;
  DuplicatesTrash : string;
  OllamaModel : string;
  DryRun : bool;
  FileLimit : Z;
  Workers : Z;
  PruneCache : bool
}.
End Config.

(** The iteration order of a Go map is unspecified.  A [range] over a map
    is modelled by running the loop body over [order], which the caller
    supplies; the theorems quantify over every [order] that lists each
    key of the map once ([range_order]). *)
Definition range_order {V : Type} (order : list string) (m : gmap string V) : Prop :=
  NoDup order /\ forall k, In k order <-> is_Some (m !! k).

(** [m[k] = append(m[k], x)] *)
Definition map_append {V : Type} (k : string) (x : V) (m : gmap string (list V))
  : gmap string (list V) :=
  <[k := (default [] (m !! k) ++ [x])%list]> m.

(* ===================================================================== *)
(** ** core_dedup.go                                                     *)
(* ===================================================================== *)

Definition organizedPatterns : list string :=
  ["/Photo/"; "/Pictures/"; "/Video/"; "/Music/"].

(** The score computed by the first loop of [chooseBestDuplicate].  The
    map [scored] is keyed by record and never changes after the loop, so
    [scored[f]] is [score f]. *)
Definition score (mf : MediaFile.t) : Z :=
  let path := MediaFile.Path mf in
  let score := 0 in
  let score := score + Z.quot (MediaFile.Size mf) 1024 in
  let score := if negb (gostrings.Contains path "/Recovered/")
               then score + 1000000 else score in
  let score := if existsb (gostrings.Contains path) organizedPatterns
               then score + 500000 else score in
  let score := if gostrings.Contains path "/UNNAMED_"
               then score - 500000 else score in
  let score := if negb (String.eqb (MediaFile.CameraMake mf) "")
               then score + 10000 else score in
  let score := if negb (String.eqb (MediaFile.Album mf) "")
               then score + 10000 else score in
  score.

(** The [less] closure handed to [sort.Slice]. *)
Definition less (a b : MediaFile.t) : bool :=
  let si := score a in
  let sj := score b in
  if negb (si =? sj) then si >? sj
  else String.ltb (MediaFile.Path a) (MediaFile.Path b).

(** [files] after the in-place sort. *)
Definition sortByScore (files : list MediaFile.t) : list MediaFile.t :=
  gosort.Slice less files.

(** [chooseBestDuplicate]: [files[0]] after the sort; [None] is the
    index-out-of-range panic on an empty slice. *)
Definition chooseBestDuplicate (files : list MediaFile.t) : option MediaFile.t :=
  head (sortByScore files).

(** The first loop of [FindDuplicates]. *)
Definition groupByHash (files : list MediaFile.t) : gmap string (list MediaFile.t) :=
  fold_left
    (fun byHash mf =>
       if String.eqb (MediaFile.Hash mf) "" then byHash
       else map_append (MediaFile.Hash mf) mf byHash)
    files ∅.

(** [FindDuplicates]; [order] is the order in which [range byHash] yields
    the digests.  [Files] shares its backing array with the slice that
    [chooseBestDuplicate] sorted, so it is the sorted group. *)
Definition FindDuplicates (order : list string) (files : list MediaFile.t)
  : list DuplicateGroup.t :=
  let byHash := groupByHash files in
  flat_map
    (fun hash =>
       let group := default [] (byHash !! hash) in
       if (1 <? Z.of_nat (List.length group)) then
         match chooseBestDuplicate group with
         | Some best => [DuplicateGroup.mk hash (sortByScore group) best]
         | None => []
         end
       else [])
    order.

(** *** The priority order of the specification

    The order as the specification words it: a strict lexicographic
    comparison of the criteria, most significant first.  It is compared
    with [less] below. *)
Module SpecPriority.
Definition underOrganized (p : string) : bool :=
  existsb (gostrings.Contains p) organizedPatterns.

Definition hasMetadata (mf : MediaFile.t) : bool :=
  negb (String.eqb (MediaFile.CameraMake mf) "") ||
  negb (String.eqb (MediaFile.Album mf) "").

(** [true] counts as more than [false]. *)
Definition bool_cmp (a b : bool) : comparison :=
  match a, b with
  | true, false => Gt
  | false, true => Lt
  | _, _ => Eq
  end.

Definition lex (c : comparison) (rest : comparison) : comparison :=
  match c with Eq => rest | _ => c end.

(** [Gt]: [a] is preferred to [b]. *)
Definition compare (a b : MediaFile.t) : comparison :=
  let pa := MediaFile.Path a in
  let pb := MediaFile.Path b in
  lex (MediaFile.Size a ?= MediaFile.Size b)
  (lex (bool_cmp (negb (gostrings.Contains pa "/Recovered/"))
                 (negb (gostrings.Contains pb "/Recovered/")))
  (lex (bool_cmp (underOrganized pa) (underOrganized pb))
  (lex (bool_cmp (negb (gostrings.Contains pa "/UNNAMED_"))
                 (negb (gostrings.Contains pb "/UNNAMED_")))
  (lex (bool_cmp (hasMetadata a) (hasMetadata b))
       (CompOpp (String.compare pa pb)))))).

Definition better (a b : MediaFile.t) : bool :=
  match compare a b with Gt => true | _ => false end.
End SpecPriority.

(* ===================================================================== *)
(** ** core_scanner.go                                                   *)
(* ===================================================================== *)

(** [m[k]] on a Go [map[string]bool]: a missing key reads as [false]. *)
Definition map_bool (m : gmap string bool) (k : string) : bool :=
  default false (m !! k).

Definition set_of (keys : list string) : gmap string bool :=
  list_to_map (List.map (fun k => (k, true)) keys).

Definition photoExtensions : gmap string bool :=
  set_of [".jpg"; ".jpeg"; ".jpe"; ".png"; ".tiff"; ".tif"; ".heic"; ".heif";
          ".raw"; ".cr2"; ".nef"; ".arw"].

Definition videoExtensions : gmap string bool :=
  set_of [".mp4"; ".mov"; ".avi"; ".wmv"; ".mkv"; ".m4v"; ".mpg"; ".mpeg";
          ".flv"; ".3gp"; ".mts"; ".m2ts"].

Definition musicExtensions : gmap string bool :=
  set_of [".mp3"; ".m4a"; ".flac"; ".wav"; ".aac"; ".ogg"; ".wma"; ".alac"].

Definition excludePatterns : list string :=
  ["/.Trash/"; "/.Thumbnails/"; "/Thumbnails/";
   "/.deleted_media/"; "/.duplicates-trash/";
   "/System/"; "/Library/"; "/Applications/";
   "/.config/"; "/retropie/"; "/OFFICE/";
   "/Template/"; "/Software/"; "/Windows/";
   "/Program Files/"].

Definition detectMediaType (path : string) : MediaType :=
  let ext := gostrings.ToLower (filepath.Ext path) in
  if map_bool photoExtensions ext then TypePhoto
  else if map_bool videoExtensions ext then TypeVideo
  else if map_bool musicExtensions ext then TypeMusic
  else TypeUnknown.

Definition shouldExclude (path : string) : bool :=
  existsb (gostrings.Contains path) excludePatterns.

(** What [filepath.Walk] finds on disk below a path.  [FsFile] is anything
    [lstat] does not report as a directory, [FsDir readable entries] a
    directory with its entries in the (sorted) order of [readDirNames],
    [readable = false] when reading it fails, and [FsBroken] an entry on
    which [lstat] itself fails. *)
#[local] Unset Elimination Schemes.
Inductive fsnode :=
| FsFile (size : Z)
| FsDir (readable : bool) (entries : list (string * fsnode))
| FsBroken.
#[local] Set Elimination Schemes.

(** The variables that the closure passed to [filepath.Walk] captures.
    [visited] is not in the source: it records the path of every call of
    the closure, so that pruning can be stated. *)
Record scanState := mkScan {
  files : list MediaFile.t;
  count : Z;
  photos : Z;
  videos : Z;
  music : Z;
  visited : list string
}.

Definition scanStart : scanState := mkScan [] 0 0 0 0 [].

Inductive walkError := ErrNil | SkipDir.

Definition visit (path : string) (st : scanState) : scanState :=
  mkScan (files st) (count st) (photos st) (videos st) (music st)
         (visited st ++ [path])%list.

(** The closure passed to [filepath.Walk].  [isDir] and [size] are read
    from [info]; [err] says that the walk reports an error for [path].
    Progress events are sent without blocking and do not touch the
    captured variables; they are left out. *)
Definition scanFn (limit : Z) (path : string) (isDir : bool) (size : Z)
                  (err : bool) (st0 : scanState) : scanState * walkError :=
  let st := visit path st0 in
  if err then (st, ErrNil)
  else if isDir then
    (if shouldExclude path then (st, SkipDir) else (st, ErrNil))
  else
    let mediaType := detectMediaType path in
    match mediaType with
    | TypeUnknown => (st, ErrNil)
    | _ =>
      if shouldExclude path then (st, ErrNil)
      else if (limit >? 0) && (count st >=? limit) then (st, SkipDir)
      else
        let mf := MediaFile.mk path size "" mediaType None "" "" "" "" "" 0 0 false in
        (mkScan (files st ++ [mf])%list
                (count st + 1)
                (match mediaType with TypePhoto => photos st + 1 | _ => photos st end)
                (match mediaType with TypeVideo => videos st + 1 | _ => videos st end)
                (match mediaType with TypeMusic => music st + 1 | _ => music st end)
                (visited st),
         ErrNil)
    end.

Definition isDirNode (n : fsnode) : bool :=
  match n with FsDir _ _ => true | _ => false end.

(** [walk] of [path/filepath]: the closure is called on the node itself,
    then the entries of a directory are walked in order.  [SkipDir]
    returned for a file ends the walk of the directory that holds it;
    returned for a directory it only skips that directory. *)
Fixpoint walk (limit : Z) (path : string) (n : fsnode) (st : scanState)
  : scanState * walkError :=
  match n with
  | FsFile size => scanFn limit path false size false st
  | FsBroken => scanFn limit path false 0 true st
  | FsDir readable entries =>
      let '(st1, err1) := scanFn limit path true 0 (negb readable) st in
      if negb readable then (st1, err1)
      else match err1 with
      | SkipDir => (st1, SkipDir)
      | ErrNil =>
        (fix walk_entries (es : list (string * fsnode)) (st : scanState)
           : scanState * walkError :=
           match es with
           | [] => (st, ErrNil)
           | (name, child) :: rest =>
               let filename := filepath.Join [path; name] in
               let '(st', err) := walk limit filename child st in
               match child, err with
               | FsBroken, _ => walk_entries rest st'
               | _, ErrNil => walk_entries rest st'
               | FsDir _ _, SkipDir => walk_entries rest st'
               | FsFile _, SkipDir => (st', SkipDir)
               end
           end) entries st1
      end
  end.

(** The loop over the entries of a directory, as a function of its own. *)
Fixpoint walk_entries (limit : Z) (path : string) (es : list (string * fsnode))
                      (st : scanState) : scanState * walkError :=
  match es with
  | [] => (st, ErrNil)
  | (name, child) :: rest =>
      let filename := filepath.Join [path; name] in
      let '(st', err) := walk limit filename child st in
      match child, err with
      | FsBroken, _ => walk_entries limit path rest st'
      | _, ErrNil => walk_entries limit path rest st'
      | FsDir _ _, SkipDir => walk_entries limit path rest st'
      | FsFile _, SkipDir => (st', SkipDir)
      end
  end.

(** [filepath.Walk(basePath, fn)] followed by the return of
    [ScanMediaFiles].  The closure returns only [nil] or [SkipDir], both of
    which [Walk] turns into a [nil] error, so the files are always
    returned. *)
Definition scanWalk (basePath : string) (limit : Z) (root : fsnode) : scanState :=
  fst (walk limit basePath root scanStart).

Definition ScanMediaFiles (basePath : string) (limit : Z) (root : fsnode)
  : list MediaFile.t :=
  files (scanWalk basePath limit root).

(* ===================================================================== *)
(** ** The cache ([Cache], [CachedFile] and their methods)               *)
(* ===================================================================== *)

Module CachedFile.
Record t := mk {
  Path : string;
  Size : Z;
  ModTime : Z;
  Hash : string;
  DateTaken : option gotime.Time;
  CameraMake : string;
  CameraModel : string;
  Artist : string;
  Album : string;
  Title : string;
  Width : Z;
  Height : Z;
  ProcessedAt : Z
}.
End CachedFile.

(** A row of the table [files]; the primary key [path] is the key of the
    map that holds the rows.  Only [date_taken] is ever written as NULL. *)
Record row := mkRow {
  r_size : Z;
  r_mod_time : Z;
  r_hash : string;
  r_date_taken : option Z;
  r_camera_make : string;
  r_camera_model : string;
  r_artist : string;
  r_album : string;
  r_title : string;
  r_width : Z;
  r_height : Z;
  r_processed_at : Z
}.

(** Records are passed to the cache by pointer ([*MediaFile]): a queued
    request names the record, and the writer reads its fields when it
    serves the request. *)
Definition ptr := positive.

Record cacheWriteRequest := mkReq { req_mf : ptr; req_modTime : gotime.Time }.

(** Who runs a statement against the store: the goroutine started by
    [OpenCache] ([go cache.writerLoop()]) or the goroutine of the caller
    of a method. *)
Inductive goroutine := WriterGoroutine | CallerGoroutine.

Inductive statement :=
| SelectRow (path : string)
| SelectPaths
| InsertOrReplace (path : string)
| DeleteRow (path : string)
| DeleteTx (paths : list string).

Definition isWrite (s : statement) : bool :=
  match s with
  | InsertOrReplace _ | DeleteRow _ | DeleteTx _ => true
  | SelectRow _ | SelectPaths => false
  end.

(** The cache: the table, the buffered channel [writeChan] (oldest
    request first) and [dblog], which is not in the source and records
    every statement run against the store with the goroutine that ran
    it. *)
Record Cache := mkCache {
  db : gmap string row;
  writeChan : list cacheWriteRequest;
  dblog : list (goroutine * statement)
}.

(** [make(chan cacheWriteRequest, 1000)] *)
Definition writeChanCap : nat := 1000.

Definition logged (g : goroutine) (s : statement) (c : Cache) : Cache :=
  mkCache (db c) (writeChan c) (dblog c ++ [(g, s)])%list.

(** [Cache.Get]: the row of [path] if its size and modification time (in
    whole seconds) are the ones asked for. *)
Definition Get (c : Cache) (path : string) (size : Z) (modTime : gotime.Time)
  : Cache * option CachedFile.t :=
  let c' := logged CallerGoroutine (SelectRow path) c in
  match db c !! path with
  | Some r =>
      if (r_size r =? size) && (r_mod_time r =? gotime.Unix_of modTime) then
        (c', Some (CachedFile.mk path (r_size r) (r_mod_time r) (r_hash r)
                     (option_map gotime.Unix (r_date_taken r))
                     (r_camera_make r) (r_camera_model r)
                     (r_artist r) (r_album r) (r_title r)
                     (r_width r) (r_height r) (r_processed_at r)))
      else (c', None)
  | None => (c', None)
  end.

(** [Cache.Put]: a non-blocking send; [false] is the error
    "cache write queue full". *)
Definition Put (c : Cache) (mf : ptr) (modTime : gotime.Time) : Cache * bool :=
  if (List.length (writeChan c) <? writeChanCap)%nat
  then (mkCache (db c) (writeChan c ++ [mkReq mf modTime])%list (dblog c), true)
  else (c, false).

(** [Cache.writeToDatabase], run on goroutine [g]; [now] is
    [time.Now().Unix()]. *)
Definition writeToDatabase (g : goroutine) (now : Z) (c : Cache)
                           (mf : MediaFile.t) (modTime : gotime.Time) : Cache :=
  let dateTakenUnix := option_map gotime.Unix_of (MediaFile.DateTaken mf) in
  let r := mkRow (MediaFile.Size mf) (gotime.Unix_of modTime) (MediaFile.Hash mf)
                 dateTakenUnix
                 (MediaFile.CameraMake mf) (MediaFile.CameraModel mf)
                 (MediaFile.Artist mf) (MediaFile.Album mf) (MediaFile.Title mf)
                 (MediaFile.Width mf) (MediaFile.Height mf) now in
  logged g (InsertOrReplace (MediaFile.Path mf))
    (mkCache (<[MediaFile.Path mf := r]> (db c)) (writeChan c) (dblog c)).

(** One iteration of [for req := range c.writeChan] in [writerLoop]: the
    oldest request is taken and written.  [heap] holds the records as they
    are at that moment. *)
Definition writerStep (heap : gmap ptr MediaFile.t) (now : Z) (c : Cache) : Cache :=
  match writeChan c with
  | [] => c
  | req :: rest =>
      let c' := mkCache (db c) rest (dblog c) in
      match heap !! req_mf req with
      | Some mf => writeToDatabase WriterGoroutine now c' mf (req_modTime req)
      | None => c'
      end
  end.

(** [writerLoop] until the channel is empty, as [Close] waits for it;
    [clock i] is the time of the [i]-th write. *)
Fixpoint writerLoop_from (heap : gmap ptr MediaFile.t) (clock : nat -> Z)
                         (i : nat) (pending : nat) (c : Cache) : Cache :=
  match pending with
  | O => c
  | S pending' =>
      writerLoop_from heap clock (S i) pending' (writerStep heap (clock i) c)
  end.

Definition writerLoop (heap : gmap ptr MediaFile.t) (clock : nat -> Z) (c : Cache)
  : Cache :=
  writerLoop_from heap clock O (List.length (writeChan c)) c.

(** [Cache.UpdatePath]: the row of the old path is deleted by the caller
    itself, the row of the new path is queued. *)
Definition UpdatePath (c : Cache) (oldPath : string) (mf : ptr)
                      (modTime : gotime.Time) : Cache :=
  let c1 := logged CallerGoroutine (DeleteRow oldPath)
              (mkCache (delete oldPath (db c)) (writeChan c) (dblog c)) in
  fst (Put c1 mf modTime).

(** Where a run of [PruneDeleted] meets an error of the store. *)
Inductive dbFault :=
| NoFault
| QueryFails
| BeginFails
| PrepareFails
| ExecFails
| CommitFails.

(** The paths collected by the first loop of [PruneDeleted]. *)
Definition pruneList (c : Cache) (validPaths : gmap string bool) : list string :=
  List.filter (fun path => negb (map_bool validPaths path))
              (List.map fst (map_to_list (db c))).

(** [Cache.PruneDeleted]: the count and whether an error is returned.
    The deletions run in a transaction [tx] on the caller's goroutine;
    they reach [db] only when [Commit] succeeds, every error path leaves
    through the deferred [Rollback]. *)
Definition PruneDeleted (fault : dbFault) (c : Cache) (validPaths : gmap string bool)
  : Cache * (Z * bool) :=
  match fault with
  | QueryFails => (c, (0, true))
  | _ =>
    let c1 := logged CallerGoroutine SelectPaths c in
    let toDelete := pruneList c validPaths in
    match toDelete with
    | [] => (c1, (0, false))
    | _ =>
      match fault with
      | BeginFails | PrepareFails | ExecFails | CommitFails => (c1, (0, true))
      | _ =>
        let tx := fold_left (fun t path => delete path t) toDelete (db c) in
        (logged CallerGoroutine (DeleteTx toDelete)
           (mkCache tx (writeChan c1) (dblog c1)),
         (Z.of_nat (List.length toDelete), false))
      end
    end
  end.

(* ===================================================================== *)
(** ** The driver: the prune pass of [runCLI] and of the TUI             *)
(* ===================================================================== *)

(** [validPaths] as both drivers build it from the scanned files. *)
Definition validPathsOf (files : list MediaFile.t) : gmap string bool :=
  fold_left (fun vp f => <[MediaFile.Path f := true]> vp) files ∅.

(** The statement that follows the scan in [runCLI] (and, with the same
    condition, the [scanCompleteMsg] case of the TUI): [cache] is [None]
    when [OpenCache] failed.  The second component is the result of the
    call of [PruneDeleted], [None] when it is not called. *)
Definition prunePass (fault : dbFault) (config : Config.t) (cache : option Cache)
                     (files : list MediaFile.t)
  : option Cache * option (Z * bool) :=
  match cache with
  | Some c =>
      if (Config.FileLimit config =? 0) || Config.PruneCache config then
        let '(c', res) := PruneDeleted fault c (validPathsOf files) in
        (Some c', Some res)
      else (cache, None)
  | None => (None, None)
  end.

(** [runCLI] from the scan to the prune pass. *)
Definition runCLI_scan_prune (fault : dbFault) (config : Config.t)
                             (cache : option Cache) (root : fsnode)
  : list MediaFile.t * option Cache * option (Z * bool) :=
  let files := ScanMediaFiles (Config.ScanPath config) (Config.FileLimit config) root in
  let '(cache', res) := prunePass fault config cache files in
  (files, cache', res).

(* ===================================================================== *)
(** ** core_organizer.go                                                 *)
(* ===================================================================== *)

(** What the organizer reaches outside the program: the naming service
    ([CheckOllamaAvailable], [SuggestAlbumName]; [None] is a returned
    error) and the JSON encoder with which [AlbumSuggestionCache]
    compares sample lists. *)
Record external := mkExternal {
  CheckOllamaAvailable : bool;
  SuggestAlbumName : string -> string -> list string -> option string;
  json_Marshal : list string -> string
}.

(** The table [album_suggestions]: folder path to the encoded sample
    files and the suggestion. *)
Definition AlbumSuggestionCache := gmap string (string * string).

Definition AlbumSuggestionCache_Get (ext : external) (a : AlbumSuggestionCache)
    (folderPath : string) (sampleFiles : list string) : option string :=
  match a !! folderPath with
  | Some (cachedSamples, suggestion) =>
      if String.eqb cachedSamples (json_Marshal ext sampleFiles)
      then Some suggestion else None
  | None => None
  end.

Definition AlbumSuggestionCache_Put (ext : external) (a : AlbumSuggestionCache)
    (folderPath : string) (sampleFiles : list string) (suggestion : string)
  : AlbumSuggestionCache :=
  <[folderPath := (json_Marshal ext sampleFiles, suggestion)]> a.

Definition fallbackAlbumName (sourceDir yearMonth : string) : string :=
  let dirName := filepath.Base sourceDir in
  let dirName := gostrings.RemoveAll dirName "_____" in
  let dirName := gostrings.TrimSpace dirName in
  if String.eqb dirName "" || String.eqb dirName "."
  then yearMonth ++ " Photos"
  else yearMonth ++ " " ++ dirName.

(** The first loop of [OrganizeIntoAlbums]. *)
Definition groupByDirectory (files : list MediaFile.t) : gmap string (list MediaFile.t) :=
  fold_left
    (fun byDirectory mf =>
       match MediaFile.Type_ mf with
       | TypeMusic => byDirectory
       | _ => map_append (filepath.Dir (MediaFile.Path mf)) mf byDirectory
       end)
    files ∅.

(** The dates of a directory group and their median: the element at index
    [len/2] of the sorted dates. *)
Definition datesOf (dirFiles : list MediaFile.t) : list gotime.Time :=
  omap MediaFile.DateTaken dirFiles.

Definition medianDateOf (dirFiles : list MediaFile.t) : option gotime.Time :=
  let dates := datesOf dirFiles in
  let sorted := gosort.Slice gotime.Before dates in
  nth_error sorted (List.length dates / 2)%nat.

Definition yearMonthOf (medianDate : option gotime.Time) : string :=
  match medianDate with
  | Some median => gotime.Format_2006_01 median
  | None => "Unknown Date"
  end.

(** The name chosen for a directory group, with the suggestion cache as
    the choice leaves it. *)
Definition suggestName (ext : external) (config : Config.t)
    (albumCache : option AlbumSuggestionCache)
    (sourceDir : string) (dirFiles : list MediaFile.t) (yearMonth : string)
  : string * option AlbumSuggestionCache :=
  if CheckOllamaAvailable ext then
    let samplePaths := List.map MediaFile.Path (firstn 5 dirFiles) in
    let cached :=
      match albumCache with
      | Some a => AlbumSuggestionCache_Get ext a sourceDir samplePaths
      | None => None
      end in
    match cached with
    | Some suggestion => (suggestion, albumCache)
    | None =>
        match SuggestAlbumName ext (Config.OllamaModel config) sourceDir samplePaths with
        | Some suggested =>
            if negb (String.eqb suggested "") then
              (suggested,
               option_map (fun a => AlbumSuggestionCache_Put ext a sourceDir samplePaths suggested)
                          albumCache)
            else (fallbackAlbumName sourceDir yearMonth, albumCache)
        | None => (fallbackAlbumName sourceDir yearMonth, albumCache)
        end
    end
  else (fallbackAlbumName sourceDir yearMonth, albumCache).

(** [dirFiles[0].Type] *)
Definition firstType (dirFiles : list MediaFile.t) : MediaType :=
  match dirFiles with
  | mf :: _ => MediaFile.Type_ mf
  | [] => TypeUnknown
  end.

Definition destDirOf (config : Config.t) (dirFiles : list MediaFile.t)
    (medianDate : option gotime.Time) (albumName : string) : string :=
  let year := match medianDate with
              | Some d => gotime.itoa (gotime.Year d)
              | None => "Unknown"
              end in
  match firstType dirFiles with
  | TypePhoto => filepath.Join [Config.LibraryBase config; "Photos"; year; albumName]
  | _ => filepath.Join [Config.LibraryBase config; "Videos"; year; albumName]
  end.

(** The variables of the main loop.  [albumsByName] holds pointers into
    [albums]; a pointer is the index of the album in [albums]. *)
Record organizeState := mkOrg {
  albums : list Album.t;
  albumsByName : gmap string nat;
  albumCache : option AlbumSuggestionCache
}.

(** The body of [for sourceDir, dirFiles := range byDirectory]. *)
Definition organizeDir (ext : external) (config : Config.t)
    (byDirectory : gmap string (list MediaFile.t))
    (st : organizeState) (sourceDir : string) : organizeState :=
  let dirFiles := default [] (byDirectory !! sourceDir) in
  if (List.length dirFiles <? 3)%nat then st
  else
    let medianDate := medianDateOf dirFiles in
    let yearMonth := yearMonthOf medianDate in
    let '(albumName, albumCache') :=
      suggestName ext config (albumCache st) sourceDir dirFiles yearMonth in
    let destDir := destDirOf config dirFiles medianDate albumName in
    match albumsByName st !! albumName with
    | Some i =>
        mkOrg (alter (fun existing =>
                        Album.mk (Album.Name existing) (Album.Destination existing)
                                 (Album.Files existing ++ dirFiles)%list
                                 (Album.SourceDirs existing ++ [sourceDir])%list
                                 (Album.Date existing) (Album.Type_ existing))
                     i (albums st))
              (albumsByName st) albumCache'
    | None =>
        let album := Album.mk albumName destDir dirFiles [sourceDir]
                              medianDate (firstType dirFiles) in
        mkOrg (albums st ++ [album])%list
              (<[albumName := List.length (albums st)]> (albumsByName st))
              albumCache'
    end.

Definition organizeLoop (ext : external) (config : Config.t)
    (albumCache : option AlbumSuggestionCache)
    (order : list string) (files : list MediaFile.t) : organizeState :=
  fold_left (organizeDir ext config (groupByDirectory files)) order
            (mkOrg [] ∅ albumCache).

(** The key under which [organizeMusicFiles] groups a record. *)
Definition musicArtist (mf : MediaFile.t) : string :=
  if String.eqb (MediaFile.Artist mf) "" then "Unknown Artist" else MediaFile.Artist mf.

Definition musicAlbum (mf : MediaFile.t) : string :=
  if String.eqb (MediaFile.Album mf) "" then "Unknown Album" else MediaFile.Album mf.

Definition musicKey (mf : MediaFile.t) : string :=
  musicArtist mf ++ " - " ++ musicAlbum mf.

Definition groupByAlbum (files : list MediaFile.t) : gmap string (list MediaFile.t) :=
  fold_left
    (fun byAlbum mf =>
       match MediaFile.Type_ mf with
       | TypeMusic => map_append (musicKey mf) mf byAlbum
       | _ => byAlbum
       end)
    files ∅.

(** The album built for one key of [byAlbum]; [parts[0]] and [parts[1]]
    read [""] where Go would panic on a missing index. *)
Definition musicAlbumOf (config : Config.t) (name : string)
    (files : list MediaFile.t) : Album.t :=
  let parts := gostrings.SplitN2 name " - " in
  let artist := nth 0 parts "" in
  let albumName := nth 1 parts "" in
  let destDir := filepath.Join [Config.LibraryBase config; "Music"; artist; albumName] in
  Album.mk name destDir files ["various"] None TypeMusic.

(** [organizeMusicFiles]; [order] is the order of [range byAlbum]. *)
Definition organizeMusicFiles (order : list string) (files : list MediaFile.t)
    (config : Config.t) : list Album.t :=
  let byAlbum := groupByAlbum files in
  List.map (fun name => musicAlbumOf config name (default [] (byAlbum !! name))) order.

(** The test of [filterAlbumsWithNewFiles] on one file of an album. *)
Definition needsMove (destination : string) (file : MediaFile.t) : bool :=
  let destPath := filepath.Join [destination; filepath.Base (MediaFile.Path file)] in
  MediaFile.IsNew file || negb (String.eqb (MediaFile.Path file) destPath).

(** The body of the loop of [filterAlbumsWithNewFiles]: the album with
    the files that need a move, or nothing when there are none. *)
Definition filteredAlbum (album : Album.t) : list Album.t :=
  let newFiles := List.filter (needsMove (Album.Destination album)) (Album.Files album) in
  match newFiles with
  | [] => []
  | _ => [Album.mk (Album.Name album) (Album.Destination album) newFiles
                   (Album.SourceDirs album) (Album.Date album) (Album.Type_ album)]
  end.

Definition filterAlbumsWithNewFiles (albums : list Album.t) : list Album.t :=
  flat_map filteredAlbum albums.

(** The albums before the final filter. *)
Definition plannedAlbums (ext : external) (config : Config.t)
    (albumCache : option AlbumSuggestionCache)
    (dirOrder musicOrder : list string) (files : list MediaFile.t) : list Album.t :=
  (albums (organizeLoop ext config albumCache dirOrder files)
   ++ organizeMusicFiles musicOrder files config)%list.

(** [OrganizeIntoAlbums]; the returned error is always [nil].
    [dirOrder] and [musicOrder] are the orders of the two [range] loops
    over maps.  Status lines go to [progressChan], which every caller
    passes as [nil]; they are left out. *)
Definition OrganizeIntoAlbums (ext : external) (config : Config.t)
    (albumCache : option AlbumSuggestionCache)
    (dirOrder musicOrder : list string) (files : list MediaFile.t) : list Album.t :=
  filterAlbumsWithNewFiles (plannedAlbums ext config albumCache dirOrder musicOrder files).

(* ===================================================================== *)
(** ** Predicates in which the facts are stated                          *)
(* ===================================================================== *)

(** Induction over a file tree, with the hypothesis for every entry of a
    directory. *)
Fixpoint fsnode_ind (P : fsnode -> Prop)
    (Hfile : forall size, P (FsFile size))
    (Hdir : forall readable entries,
        List.Forall (fun e => P (snd e)) entries -> P (FsDir readable entries))
    (Hbroken : P FsBroken)
    (n : fsnode) {struct n} : P n :=
  match n with
  | FsFile size => Hfile size
  | FsBroken => Hbroken
  | FsDir readable entries =>
      Hdir readable entries
        ((fix all (es : list (string * fsnode)) : List.Forall (fun e => P (snd e)) es :=
            match es with
            | [] => List.Forall_nil _
            | e :: es' =>
                @List.Forall_cons _ _ e es' (fsnode_ind P Hfile Hdir Hbroken (snd e)) (all es')
            end) entries)
  end.

(** [less] is a strict weak order: it never holds both ways, and "not
    less" is transitive. *)
Definition strict_weak {A : Type} (less : A -> A -> bool) : Prop :=
  (forall a b, less a b = true -> less b a = false) /\
  (forall a b c, less b a = false -> less c b = false -> less c a = false).

(** The part of a slice that insertion sort has sorted, read from its
    last element: every later element is not [less] than an earlier one. *)
Definition sorted_rev {A : Type} (less : A -> A -> bool) (acc : list A) : Prop :=
  StronglySorted (fun later earlier => less later earlier = false) acc.

(** The extension of [path] is in one of the three tables. *)
Definition knownExtension (path : string) : bool :=
  let ext := gostrings.ToLower (filepath.Ext path) in
  map_bool photoExtensions ext || map_bool videoExtensions ext ||
  map_bool musicExtensions ext.

(** What holds of every record that the closure has appended. *)
Definition scannedOk (mf : MediaFile.t) : Prop :=
  MediaFile.Type_ mf <> TypeUnknown /\
  MediaFile.Type_ mf = detectMediaType (MediaFile.Path mf) /\
  knownExtension (MediaFile.Path mf) = true /\
  shouldExclude (MediaFile.Path mf) = false.

(** The invariant of the walk: [count] is the number of records, they
    are all acceptable, and a positive limit bounds their number. *)
Definition scanInv (limit : Z) (st : scanState) : Prop :=
  List.Forall scannedOk (files st) /\
  count st = Z.of_nat (List.length (files st)) /\
  (0 < limit -> count st <= limit).


(** The fields of a record that a cache entry repeats.  The capture date
    is stored in whole seconds. *)
Definition truncSeconds (t : gotime.Time) : gotime.Time :=
  gotime.Unix (gotime.Unix_of t).

Definition entryOf (mf : MediaFile.t) (cf : CachedFile.t) : Prop :=
  CachedFile.Path cf = MediaFile.Path mf /\
  CachedFile.Size cf = MediaFile.Size mf /\
  CachedFile.Hash cf = MediaFile.Hash mf /\
  CachedFile.DateTaken cf = option_map truncSeconds (MediaFile.DateTaken mf) /\
  CachedFile.CameraMake cf = MediaFile.CameraMake mf /\
  CachedFile.CameraModel cf = MediaFile.CameraModel mf /\
  CachedFile.Artist cf = MediaFile.Artist mf /\
  CachedFile.Album cf = MediaFile.Album mf /\
  CachedFile.Title cf = MediaFile.Title mf /\
  CachedFile.Width cf = MediaFile.Width mf /\
  CachedFile.Height cf = MediaFile.Height mf.

(** Every write statement in the log was run by the writer goroutine. *)
Definition writerOnly (log : list (goroutine * statement)) : Prop :=
  forall g s, In (g, s) log -> isWrite s = true -> g = WriterGoroutine.

(** The write statements that an operation added to the log of [c]. *)
Definition writesSince (c c' : Cache) : list (goroutine * statement) :=
  List.filter (fun e => isWrite (snd e)) (skipn (List.length (dblog c)) (dblog c')).

Definition isMusic (t : MediaType) : bool :=
  match t with TypeMusic => true | _ => false end.

(** The non-audio records of [files] that lie directly in [dir], and the
    audio records grouped under [key]. *)
Definition inDirectory (dir : string) (mf : MediaFile.t) : bool :=
  negb (isMusic (MediaFile.Type_ mf)) &&
  String.eqb (filepath.Dir (MediaFile.Path mf)) dir.

Definition underKey (key : string) (mf : MediaFile.t) : bool :=
  isMusic (MediaFile.Type_ mf) && String.eqb (musicKey mf) key.

(** The album name that [OrganizeIntoAlbums] computes for the records
    [dirFiles] of the directory [sourceDir]. *)
Definition computedName (ext : external) (config : Config.t)
    (albumCache : option AlbumSuggestionCache)
    (sourceDir : string) (dirFiles : list MediaFile.t) : string :=
  fst (suggestName ext config albumCache sourceDir dirFiles
                   (yearMonthOf (medianDateOf dirFiles))).

(** The photo and video albums of a result that carry the name [n]. *)
Definition namedAlbums (n : string) (result : list Album.t) : list Album.t :=
  List.filter (fun a => negb (isMusic (Album.Type_ a)) && String.eqb (Album.Name a) n)
              result.

(** The two strings that [organizeMusicFiles] reads back from a key. *)
Definition musicParts (name : string) : string * string :=
  let parts := gostrings.SplitN2 name " - " in
  (nth 0 parts "", nth 1 parts "").

(** A directory takes part in album formation when it holds at least
    three non-audio records. *)
Definition qualifies (files : list MediaFile.t) (dir : string) : bool :=
  negb (List.length (List.filter (inDirectory dir) files) <? 3)%nat.

(** The album name computed for the directory [dir] of [files]. *)
Definition nameOfDir (ext : external) (config : Config.t)
    (albumCache : option AlbumSuggestionCache) (files : list MediaFile.t)
    (dir : string) : string :=
  computedName ext config albumCache dir (List.filter (inDirectory dir) files).

(** The directories among [dirs] that take part and are given the name
    [n], in the order of [dirs]. *)
Definition mergedDirs (ext : external) (config : Config.t)
    (albumCache : option AlbumSuggestionCache) (files : list MediaFile.t)
    (dirs : list string) (n : string) : list string :=
  List.filter (fun d => qualifies files d &&
                        String.eqb (nameOfDir ext config albumCache files d) n) dirs.

(** What a suggestion cache holds for one folder. *)
Definition cacheAt (albumCache : option AlbumSuggestionCache) (dir : string)
  : option (option (string * string)) :=
  option_map (fun a => a !! dir) albumCache.

(** The invariant of the main loop of [OrganizeIntoAlbums] after the
    directories [done]: the name index and the albums describe each
    other, every album holds the records of exactly the directories that
    were given its name, and the cache entries of the directories still
    to come are untouched. *)
Definition loopInv (ext : external) (config : Config.t)
    (cache0 : option AlbumSuggestionCache) (files : list MediaFile.t)
    (done : list string) (st : organizeState) : Prop :=
  (forall n i, albumsByName st !! n = Some i ->
     exists a, albums st !! i = Some a /\ Album.Name a = n) /\
  (forall i a, albums st !! i = Some a ->
     albumsByName st !! Album.Name a = Some i /\
     Album.SourceDirs a = mergedDirs ext config cache0 files done (Album.Name a) /\
     Album.Files a =
       flat_map (fun d => List.filter (inDirectory d) files) (Album.SourceDirs a) /\
     isMusic (Album.Type_ a) = false) /\
  (forall d, In d done -> qualifies files d = true ->
     is_Some (albumsByName st !! nameOfDir ext config cache0 files d)) /\
  (forall d, ~ In d done -> cacheAt (albumCache st) d = cacheAt cache0 d).

(* ===================================================================== *)
(** ** Example inputs                                                   *)
(* ===================================================================== *)

(** Two candidates of a duplicate group that differ in size. *)
Definition recoveredLarge : MediaFile.t :=
  MediaFile.mk "/Recovered/a.jpg" 2048 "d1" TypePhoto None "" "" "" "" "" 0 0 false.

Definition plainSmall : MediaFile.t :=
  MediaFile.mk "/b.jpg" 1024 "d1" TypePhoto None "" "" "" "" "" 0 0 false.

(** Two byte-identical candidates: one under [/Recovered/], in a photo
    folder and with camera and album metadata; one outside [/Recovered/],
    in an [UNNAMED_] folder and without metadata. *)
Definition recoveredRich : MediaFile.t :=
  MediaFile.mk "/Recovered/Photo/a.jpg" 2048 "d1" TypePhoto None
               "Canon" "" "" "Summer" "" 0 0 false.

Definition unnamedPlain : MediaFile.t :=
  MediaFile.mk "/UNNAMED_1/b.jpg" 2048 "d1" TypePhoto None "" "" "" "" "" 0 0 false.

(** A file tree: two media directories, an excluded one and a loose file. *)
Definition exampleTree : fsnode :=
  FsDir true
    [("a", FsDir true [("1.jpg", FsFile 10); ("2.JPG", FsFile 20);
                       ("3.txt", FsFile 1); ("4.mp3", FsFile 3)]);
     ("Library", FsDir true [("sub", FsDir true [("x.jpg", FsFile 1)]);
                             ("y.jpg", FsFile 2)]);
     ("b", FsDir true [("5.mov", FsFile 10); ("6.mov", FsFile 10)]);
     ("z.png", FsFile 1)].

(** A record whose capture date has a sub-second part, as the
    modification time of a file has. *)
Definition clip : MediaFile.t :=
  MediaFile.mk "/src/clip.mov" 4096 "d2" TypeVideo
               (Some (gotime.mkTime 1590000000 5)) "" "" "" "" "" 0 0 true.

Definition clipHeap : gmap ptr MediaFile.t := {[ 1%positive := clip ]}.

Definition emptyCache : Cache := mkCache ∅ [] [].

Definition someRow : row := mkRow 1 1 "d" None "" "" "" "" "" 0 0 0.

(** A cache with four rows, two of which are in [halfValid]. *)
Definition fourRows : Cache :=
  mkCache (list_to_map [("/a", someRow); ("/b", someRow);
                        ("/c", someRow); ("/d", someRow)]) [] [].

Definition halfValid : gmap string bool :=
  list_to_map [("/a", true); ("/c", true)].

(** The cache after an earlier full scan of [exampleTree] under [/r]:
    rows of two files that are still on disk. *)
Definition scannedBefore : Cache :=
  mkCache (list_to_map [("/r/a/1.jpg", someRow); ("/r/b/5.mov", someRow)]) [] [].

(** A run capped at one file in which pruning was asked for, and a capped
    run in which it was not. *)
Definition cappedPruning : Config.t :=
  Config.mk "/r" "/lib" "/trash" "gemma2:2b" true 1 4 true.

Definition cappedPlain : Config.t :=
  Config.mk "/r" "/lib" "/trash" "gemma2:2b" true 100 4 false.

(** A record that has just been moved into the library. *)
Definition moved : MediaFile.t :=
  MediaFile.mk "/lib/Photos/2020/Trip/a.jpg" 2048 "d3" TypePhoto
               (Some (gotime.mkTime 1590000000 0)) "" "" "" "" "" 0 0 true.

Definition movedHeap : gmap ptr MediaFile.t := {[ 1%positive := moved ]}.

(** The cache row of the record under its old path. *)
Definition beforeMove : Cache :=
  mkCache {[ "/src/Trip/a.jpg" := someRow ]} [] [].

Definition libConfig : Config.t :=
  Config.mk "/src" "/lib" "/trash" "gemma2:2b" true 0 4 false.

Definition song (path artist album : string) : MediaFile.t :=
  MediaFile.mk path 4096 "" TypeMusic None "" "" artist album "" 0 0 true.

(** An artist that ends with a blank and a dash, one that holds the
    separator, and a plain one. *)
Definition dashArtist : MediaFile.t := song "/src/m/1.mp3" "A -" "B".
Definition splitArtist : MediaFile.t := song "/src/m/2.mp3" "A - B" "C".
Definition plainArtist : MediaFile.t := song "/src/m/3.mp3" "Nina Simone" "Pastel Blues".

(** A naming service that answers "Trip" to every request. *)
Definition tripService : external :=
  mkExternal true (fun _ _ _ => Some "Trip") (fun samples => String.concat "," samples).

Definition photo (path : string) (isNew : bool) : MediaFile.t :=
  MediaFile.mk path 2048 "" TypePhoto (Some (gotime.mkTime 1590000000 0))
               "" "" "" "" "" 0 0 isNew.

(** Three photos that an earlier run moved into the library and cached,
    and three photos of a folder not yet organized. *)
Definition settledTrip : list MediaFile.t :=
  [photo "/lib/Photos/2020/Trip/a.jpg" false;
   photo "/lib/Photos/2020/Trip/b.jpg" false;
   photo "/lib/Photos/2020/Trip/c.jpg" false].

Definition newTrip : list MediaFile.t :=
  [photo "/src/Trip/d.jpg" true; photo "/src/Trip/e.jpg" true;
   photo "/src/Trip/f.jpg" true].

(* ===================================================================== *)
(** * Facts                                                              *)
(* ===================================================================== *)

(** ** The byte-wise order of strings *)

Lemma string_compare_OT (s t : string) :
  String.compare s t = String_as_OT.compare s t.
Proof.
  revert t; induction s as [|c s IH]; intros [|d t]; reflexivity.
Qed.

Lemma ltb_lt (s t : string) : String.ltb s t = true <-> String_as_OT.lt s t.
Proof.
  unfold String.ltb, String_as_OT.lt. rewrite string_compare_OT.
  destruct (String_as_OT.compare s t); split; congruence.
Qed.

Lemma ltb_irrefl (s : string) : String.ltb s s = false.
Proof.
  destruct (String.ltb s s) eqn:E; [|reflexivity].
  apply ltb_lt in E. exfalso. revert E. apply (StrictOrder_Irreflexive s).
Qed.

Lemma ltb_trans (s t u : string) :
  String.ltb s t = true -> String.ltb t u = true -> String.ltb s u = true.
Proof.
  rewrite !ltb_lt. apply (StrictOrder_Transitive s t u).
Qed.

Lemma ltb_total (s t : string) :
  s = t \/ String.ltb s t = true \/ String.ltb t s = true.
Proof.
  destruct (String_as_OT.compare_spec s t) as [E|L|L].
  - left. exact E.
  - right; left. apply ltb_lt, L.
  - right; right. apply ltb_lt, L.
Qed.

Lemma ltb_asym (s t : string) : String.ltb s t = true -> String.ltb t s = false.
Proof.
  intros H. destruct (String.ltb t s) eqn:E; [|reflexivity].
  pose proof (ltb_trans _ _ _ H E) as C. rewrite ltb_irrefl in C. discriminate.
Qed.

Lemma leb_not_ltb (s t : string) : String.leb s t = negb (String.ltb t s).
Proof.
  unfold String.leb, String.ltb. rewrite (String.compare_antisym s t).
  destruct (String.compare t s); reflexivity.
Qed.

(** ** [sort.Slice] *)

Section SliceFacts.
Context {A : Type} (less : A -> A -> bool).

Lemma insert_left_perm (x : A) (acc : list A) :
  Permutation (x :: acc) (gosort.insert_left less x acc).
Proof.
  induction acc as [|y acc IH]; simpl; [reflexivity|].
  destruct (less x y); [|reflexivity].
  rewrite perm_swap. apply perm_skip, IH.
Qed.

Lemma fold_insert_perm (data acc : list A) :
  Permutation (List.rev data ++ acc)%list
              (fold_left (fun acc x => gosort.insert_left less x acc) data acc).
Proof.
  revert acc; induction data as [|x data IH]; intros acc; simpl; [reflexivity|].
  rewrite <- IH, <- app_assoc. simpl.
  apply Permutation_app_head, insert_left_perm.
Qed.

Lemma Slice_perm (data : list A) : Permutation data (gosort.Slice less data).
Proof.
  unfold gosort.Slice. rewrite <- Permutation_rev.
  rewrite <- fold_insert_perm, app_nil_r. apply Permutation_rev.
Qed.

Lemma insert_left_sorted (x : A) (acc : list A) :
  strict_weak less -> sorted_rev less acc -> sorted_rev less (gosort.insert_left less x acc).
Proof.
  intros [Hasym Htrans]. unfold sorted_rev.
  induction acc as [|y acc IH]; intros Hs; simpl.
  - constructor; constructor.
  - apply StronglySorted_inv in Hs as [Hs Hy].
    destruct (less x y) eqn:E.
    + constructor; [apply IH, Hs|].
      rewrite <- (insert_left_perm x acc). constructor; [|exact Hy].
      apply Hasym, E.
    + constructor; [constructor; assumption|].
      constructor; [exact E|].
      rewrite List.Forall_forall in Hy |- *. intros z Hz.
      apply (Htrans z y x); [apply Hy, Hz | exact E].
Qed.

Lemma sorted_rev_rev (acc : list A) :
  sorted_rev less acc ->
  StronglySorted (fun a b => less b a = false) (List.rev acc).
Proof.
  unfold sorted_rev. induction 1 as [|y acc Hs IH Hy]; simpl; [constructor|].
  clear Hs. revert IH Hy. generalize (List.rev_involutive acc).
  intros _ IH Hy.
  assert (Hy' : Forall (fun e => less y e = false) (List.rev acc)).
  { rewrite List.Forall_forall in Hy |- *. intros e He. apply Hy, in_rev, He. }
  clear Hy. induction IH as [|a l Hl IHl Ha]; simpl.
  - constructor; constructor.
  - apply List.Forall_cons_iff in Hy' as [Hya Hy'].
    constructor; [apply IHl, Hy'|].
    apply List.Forall_app; split; [exact Ha|]. constructor; [exact Hya|constructor].
Qed.

Lemma Slice_sort_result (data : list A) :
  strict_weak less -> gosort.sort_result less data (gosort.Slice less data).
Proof.
  intros Hsw. split; [apply Slice_perm|].
  unfold gosort.Slice. apply sorted_rev_rev.
  generalize (@nil A), (SSorted_nil (fun later earlier : A => less later earlier = false)).
  induction data as [|x data IH]; intros acc Hacc; simpl; [exact Hacc|].
  apply IH, insert_left_sorted; assumption.
Qed.

(** The first element of a sorted result: it is one of the inputs and no
    input is [less] than it. *)
Lemma sort_result_head (data out : list A) (h : A) :
  strict_weak less -> gosort.sort_result less data out -> head out = Some h ->
  In h data /\ forall f, In f data -> less f h = false.
Proof.
  intros [Hasym _] [Hp Hs] Hh. destruct out as [|h' out]; [discriminate|].
  simpl in Hh. injection Hh as ->.
  apply StronglySorted_inv in Hs as [_ Hall].
  split.
  - apply (Permutation_in _ (Permutation_sym Hp)). left; reflexivity.
  - intros f Hf. apply (Permutation_in _ Hp) in Hf as [<-|Hf].
    + destruct (less h h) eqn:E; [|reflexivity]. rewrite <- E. apply Hasym, E.
    + rewrite List.Forall_forall in Hall. apply Hall, Hf.
Qed.

Lemma sort_result_nil (data out : list A) :
  gosort.sort_result less data out -> head out = None -> data = [].
Proof.
  intros [Hp _] Hh. destruct out; [|discriminate].
  apply Permutation_sym, Permutation_nil in Hp. exact Hp.
Qed.
End SliceFacts.

(** ** core_dedup.go: the order behind [chooseBestDuplicate] *)

(** [less a b] is false exactly when [b] is at least as good as [a] is:
    a higher score, or the same score and a path that is not larger. *)
Lemma less_false_iff (a b : MediaFile.t) :
  less a b = false <->
  score a < score b \/
  (score a = score b /\ String.leb (MediaFile.Path b) (MediaFile.Path a) = true).
Proof.
  unfold less. rewrite leb_not_ltb.
  destruct (score a =? score b) eqn:E; simpl.
  - apply Z.eqb_eq in E. rewrite negb_true_iff. split; [intros H; right; auto|].
    intros [H|[_ H]]; [lia|exact H].
  - apply Z.eqb_neq in E. rewrite Z.gtb_ltb, Z.ltb_ge. split; [lia|].
    intros [H|[H _]]; lia.
Qed.

Lemma less_strict_weak : strict_weak less.
Proof.
  split.
  - intros a b H. unfold less in *.
    destruct (score a =? score b) eqn:E; simpl in H.
    + apply Z.eqb_eq in E. rewrite <- E, Z.eqb_refl. simpl. apply ltb_asym, H.
    + apply Z.eqb_neq in E. rewrite Z.gtb_ltb, Z.ltb_lt in H.
      replace (score b =? score a) with false by (symmetry; apply Z.eqb_neq; lia).
      simpl. rewrite Z.gtb_ltb. apply Z.ltb_ge. lia.
  - intros a b c. rewrite !less_false_iff, !leb_not_ltb, !negb_true_iff.
    intros [H1|[H1 L1]] [H2|[H2 L2]]; try (left; lia).
    right. split; [lia|].
    destruct (String.ltb (MediaFile.Path c) (MediaFile.Path a)) eqn:E; [|reflexivity].
    destruct (ltb_total (MediaFile.Path a) (MediaFile.Path b)) as [Eab|[Lab|Lba]].
    + rewrite Eab in E. congruence.
    + pose proof (ltb_trans _ _ _ E Lab). congruence.
    + congruence.
Qed.

(** Records with different paths are never tied. *)
Lemma less_total (a b : MediaFile.t) :
  MediaFile.Path a <> MediaFile.Path b -> less a b = true \/ less b a = true.
Proof.
  intros Hne. unfold less.
  destruct (score a =? score b) eqn:E; simpl.
  - apply Z.eqb_eq in E. rewrite <- E, Z.eqb_refl. simpl.
    destruct (ltb_total (MediaFile.Path a) (MediaFile.Path b)) as [?|[?|?]]; tauto.
  - apply Z.eqb_neq in E.
    replace (score b =? score a) with false by (symmetry; apply Z.eqb_neq; lia).
    simpl. rewrite !Z.gtb_ltb, !Z.ltb_lt. lia.
Qed.

Lemma sortByScore_sort_result (files : list MediaFile.t) :
  gosort.sort_result less files (sortByScore files).
Proof. apply Slice_sort_result, less_strict_weak. Qed.

(** The score stays inside the range of a 64-bit [int]: the additions of
    the source never wrap. *)
Lemma score_in_int64 (mf : MediaFile.t) :
  - 2 ^ 63 <= MediaFile.Size mf < 2 ^ 63 ->
  - 2 ^ 63 <= score mf < 2 ^ 63.
Proof.
  intros H. unfold score.
  assert (- 2 ^ 53 <= MediaFile.Size mf ÷ 1024 <= 2 ^ 53).
  { split.
    - apply Z.quot_le_lower_bound; lia.
    - apply Z.quot_le_upper_bound; lia. }
  repeat match goal with |- context [if ?c then _ else _] => destruct c end; lia.
Qed.

(** The best record of a non-empty slice: a member that no member beats. *)
Lemma chooseBest_spec (files : list MediaFile.t) (b : MediaFile.t) :
  chooseBestDuplicate files = Some b ->
  In b files /\
  forall f, In f files ->
    score f < score b \/
    (score f = score b /\ String.leb (MediaFile.Path b) (MediaFile.Path f) = true).
Proof.
  intros H.
  destruct (sort_result_head less files _ b less_strict_weak
              (sortByScore_sort_result files) H) as [Hin Hmin].
  split; [exact Hin|]. intros f Hf. apply less_false_iff, Hmin, Hf.
Qed.

Lemma chooseBest_some (files : list MediaFile.t) :
  files <> [] -> exists b, chooseBestDuplicate files = Some b.
Proof.
  intros Hne. destruct (chooseBestDuplicate files) as [b|] eqn:E; [eauto|].
  exfalso. apply Hne.
  apply (sort_result_nil less files _ (sortByScore_sort_result files) E).
Qed.

(** Any sorted arrangement of a slice with pairwise distinct paths starts
    with the record that [chooseBestDuplicate] returns. *)
Lemma sorted_head_unique (files out : list MediaFile.t) :
  NoDup (List.map MediaFile.Path files) ->
  gosort.sort_result less files out ->
  head out = chooseBestDuplicate files.
Proof.
  intros Hnd Hout.
  destruct (head out) as [h|] eqn:Eh.
  - destruct (sort_result_head less files out h less_strict_weak Hout Eh) as [Hin Hmin].
    destruct (chooseBest_some files) as [b Eb].
    { intros ->. destruct Hin. }
    rewrite Eb. f_equal.
    destruct (sort_result_head less files _ b less_strict_weak
                (sortByScore_sort_result files) Eb) as [Hinb Hminb].
    destruct (string_dec (MediaFile.Path h) (MediaFile.Path b)) as [Ep|Ep].
    + clear -Hnd Hin Hinb Ep. induction files as [|x files IH]; [destruct Hin|].
      simpl in Hnd. apply NoDup_cons in Hnd as [Hx Hnd].
      destruct Hin as [->|Hin], Hinb as [->|Hinb]; auto.
      * exfalso. apply Hx. rewrite Ep. apply list_elem_of_In, in_map, Hinb.
      * exfalso. apply Hx. rewrite <- Ep. apply list_elem_of_In, in_map, Hin.
    + destruct (less_total h b Ep) as [L|L].
      * rewrite (Hminb h Hin) in L. discriminate.
      * rewrite (Hmin b Hinb) in L. discriminate.
  - apply (sort_result_nil less files out Hout) in Eh. subst files. reflexivity.
Qed.

(** ** [FindDuplicates]: what a group holds *)

Lemma map_append_lookup {V : Type} (k k' : string) (x : V) (m : gmap string (list V)) :
  map_append k x m !! k' =
  if decide (k = k') then Some (default [] (m !! k) ++ [x])%list else m !! k'.
Proof. unfold map_append. apply lookup_insert. Qed.

Lemma groupByHash_members (files : list MediaFile.t) (h : string) (group : list MediaFile.t) :
  groupByHash files !! h = Some group ->
  forall f, In f group -> MediaFile.Hash f = h /\ In f files.
Proof.
  unfold groupByHash.
  assert (G : forall (acc : gmap string (list MediaFile.t)) (seen : list MediaFile.t),
             (forall k l, acc !! k = Some l ->
                forall f, In f l -> MediaFile.Hash f = k /\ In f seen) ->
             forall k l,
               fold_left (fun byHash mf =>
                            if String.eqb (MediaFile.Hash mf) "" then byHash
                            else map_append (MediaFile.Hash mf) mf byHash) files acc !! k = Some l ->
               forall f, In f l -> MediaFile.Hash f = k /\ In f (seen ++ files)%list).
  { induction files as [|mf files IH]; intros acc seen Hacc k l Hl f Hf; simpl in Hl.
    - rewrite app_nil_r. eapply Hacc; eauto.
    - replace (seen ++ mf :: files)%list with ((seen ++ [mf]) ++ files)%list
        by (rewrite <- app_assoc; reflexivity).
      eapply IH; [|exact Hl|exact Hf].
      clear Hl Hf k l f. intros k l Hl f Hf.
      destruct (String.eqb (MediaFile.Hash mf) "").
      + destruct (Hacc k l Hl f Hf) as [? ?]. split; [assumption|].
        apply in_or_app; left; assumption.
      + rewrite map_append_lookup in Hl. destruct (decide (MediaFile.Hash mf = k)) as [<-|Hne].
        * injection Hl as <-. apply in_app_or in Hf as [Hf|[<-|[]]].
          -- destruct (acc !! MediaFile.Hash mf) as [l0|] eqn:E0; [|destruct Hf].
             destruct (Hacc _ _ E0 f Hf) as [? ?]. split; [assumption|].
             apply in_or_app; left; assumption.
          -- split; [reflexivity|]. apply in_or_app; right; left; reflexivity.
        * destruct (Hacc k l Hl f Hf) as [? ?]. split; [assumption|].
          apply in_or_app; left; assumption. }
  intros Hl f Hf.
  apply (G ∅ [] (fun k l E => ltac:(rewrite lookup_empty in E; discriminate)) h group Hl f Hf).
Qed.

Lemma FindDuplicates_group (order : list string) (files : list MediaFile.t)
    (g : DuplicateGroup.t) :
  In g (FindDuplicates order files) ->
  exists group,
    groupByHash files !! DuplicateGroup.Hash g = Some group /\
    (1 < List.length group)%nat /\
    DuplicateGroup.Files g = sortByScore group /\
    chooseBestDuplicate group = Some (DuplicateGroup.Best g).
Proof.
  unfold FindDuplicates. rewrite in_flat_map. intros (hash & _ & Hg).
  destruct (groupByHash files !! hash) as [group|] eqn:E; simpl in Hg; [|destruct Hg].
  destruct (1 <? Z.of_nat (List.length group)) eqn:Hlen; [|destruct Hg].
  destruct (chooseBestDuplicate group) as [best|] eqn:Hb; [|destruct Hg].
  destruct Hg as [<-|[]]. simpl. exists group. rewrite E.
  repeat split; try assumption. apply Z.ltb_lt in Hlen. lia.
Qed.

(** *** Examples of duplicate groups *)

Example score_recoveredLarge : score recoveredLarge = 2.
Proof. reflexivity. Qed.

Example score_plainSmall : score plainSmall = 1000001.
Proof. reflexivity. Qed.

Example score_recoveredRich : score recoveredRich = 520002.
Proof. reflexivity. Qed.

Example score_unnamedPlain : score unnamedPlain = 500002.
Proof. reflexivity. Qed.

(** The same happens between candidates of different size: one kilobyte
    more does not outweigh a path under [/Recovered/]. *)
Example larger_recovered_file_loses :
  chooseBestDuplicate [recoveredLarge; plainSmall] = Some plainSmall /\
  SpecPriority.better recoveredLarge plainSmall = true.
Proof. split; reflexivity. Qed.

(** C2 (as stated) fails: of two candidates of the same size, the one
    outside [/Recovered/] comes first in the priority order of the
    specification; the bonuses for a photo folder and for metadata, with
    the penalty of the other for its [UNNAMED_] folder, add up to more
    than the bonus for not being recovered, and the recovered record is
    chosen as [Best]. *)
Lemma best_not_lexicographic_max :
  exists g,
    In g (FindDuplicates ["d1"] [recoveredRich; unnamedPlain]) /\
    DuplicateGroup.Best g = recoveredRich /\
    In unnamedPlain (DuplicateGroup.Files g) /\
    SpecPriority.better unnamedPlain (DuplicateGroup.Best g) = true.
Proof.
  eexists. split; [left; reflexivity|].
  split; [reflexivity|]. split; [right; left; reflexivity|reflexivity].
Qed.

(** C2 (amended): in every group that [FindDuplicates] returns there are
    at least two records, all with the digest of the group, and [Best] is
    a record of the group with the highest [score] (the sum of the size
    in kilobytes and the path and metadata bonuses); among the records
    with that score it has the smallest path. *)
Theorem best_is_max_score (order : list string) (files : list MediaFile.t)
    (g : DuplicateGroup.t) :
  In g (FindDuplicates order files) ->
  (1 < List.length (DuplicateGroup.Files g))%nat /\
  (forall f, In f (DuplicateGroup.Files g) ->
     MediaFile.Hash f = DuplicateGroup.Hash g /\ In f files) /\
  In (DuplicateGroup.Best g) (DuplicateGroup.Files g) /\
  (forall f, In f (DuplicateGroup.Files g) ->
     score f < score (DuplicateGroup.Best g) \/
     (score f = score (DuplicateGroup.Best g) /\
      String.leb (MediaFile.Path (DuplicateGroup.Best g)) (MediaFile.Path f) = true)).
Proof.
  intros Hg. destruct (FindDuplicates_group order files g Hg) as (group & Hgrp & Hlen & Hfiles & Hbest).
  pose proof (Slice_perm less group) as Hperm. fold (sortByScore group) in Hperm.
  destruct (chooseBest_spec group _ Hbest) as [Hin Hmax].
  rewrite Hfiles. repeat split.
  - rewrite <- (Permutation_length Hperm). exact Hlen.
  - apply (groupByHash_members files _ group Hgrp).
    apply (Permutation_in _ (Permutation_sym Hperm)). assumption.
  - apply (groupByHash_members files _ group Hgrp).
    apply (Permutation_in _ (Permutation_sym Hperm)). assumption.
  - apply (Permutation_in _ Hperm), Hin.
  - intros f Hf. apply Hmax. apply (Permutation_in _ (Permutation_sym Hperm)), Hf.
Qed.

Lemma best_is_max_score_witness :
  score recoveredLarge < score plainSmall \/
  (score recoveredLarge = score plainSmall /\
   String.leb (MediaFile.Path plainSmall) (MediaFile.Path recoveredLarge) = true).
Proof.
  pose proof (best_is_max_score ["d1"] [recoveredLarge; plainSmall]
                (DuplicateGroup.mk "d1" [plainSmall; recoveredLarge] plainSmall)
                (or_introl eq_refl)) as H.
  exact (proj2 (proj2 (proj2 H)) recoveredLarge (or_intror (or_introl eq_refl))).
Defined.

(** C6: the record chosen from a slice with pairwise distinct paths does
    not depend on the order of the slice, nor on the sorting algorithm
    (any sorted arrangement of any reordering starts with it); records
    with the best score are told apart by the smaller path. *)
Theorem chooseBest_deterministic (files files' : list MediaFile.t) :
  NoDup (List.map MediaFile.Path files) ->
  Permutation files files' ->
  chooseBestDuplicate files' = chooseBestDuplicate files /\
  (forall out, gosort.sort_result less files' out ->
     head out = chooseBestDuplicate files) /\
  (forall b f, chooseBestDuplicate files = Some b -> In f files ->
     score f = score b ->
     String.leb (MediaFile.Path b) (MediaFile.Path f) = true).
Proof.
  intros Hnd Hperm.
  assert (Hany : forall out, gosort.sort_result less files' out ->
                   head out = chooseBestDuplicate files).
  { intros out [Hp Hs]. apply sorted_head_unique; [exact Hnd|].
    split; [|exact Hs]. etransitivity; eassumption. }
  split; [|split].
  - apply Hany, sortByScore_sort_result.
  - exact Hany.
  - intros b f Hb Hf Hsc. destruct (chooseBest_spec files b Hb) as [_ Hmax].
    destruct (Hmax f Hf) as [Hlt|[_ Hle]]; [lia|exact Hle].
Qed.

Lemma chooseBest_deterministic_witness :
  chooseBestDuplicate [plainSmall; recoveredLarge]
  = chooseBestDuplicate [recoveredLarge; plainSmall].
Proof.
  refine (proj1 (chooseBest_deterministic [recoveredLarge; plainSmall]
                   [plainSmall; recoveredLarge] _ _)).
  - compute_done.
  - apply perm_swap.
Defined.

(** ** core_scanner.go: what [ScanMediaFiles] returns *)

Lemma walk_dir (limit : Z) (path : string) (readable : bool)
    (entries : list (string * fsnode)) (st : scanState) :
  walk limit path (FsDir readable entries) st =
  let '(st1, err1) := scanFn limit path true 0 (negb readable) st in
  if negb readable then (st1, err1)
  else match err1 with
       | SkipDir => (st1, SkipDir)
       | ErrNil => walk_entries limit path entries st1
       end.
Proof.
  simpl. destruct (scanFn limit path true 0 (negb readable) st) as [st1 err1].
  destruct (negb readable); [reflexivity|]. destruct err1; [|reflexivity].
  revert st1. induction entries as [|[name child] rest IH]; intros st1; [reflexivity|].
  simpl. destruct (walk limit (filepath.Join [path; name]) child st1) as [st' err].
  destruct child, err; try reflexivity; apply IH.
Qed.

Lemma detect_known (path : string) :
  detectMediaType path <> TypeUnknown -> knownExtension path = true.
Proof.
  unfold detectMediaType, knownExtension.
  destruct (map_bool photoExtensions _); [reflexivity|].
  destruct (map_bool videoExtensions _); [reflexivity|].
  destruct (map_bool musicExtensions _); [reflexivity|]. congruence.
Qed.

Lemma scanInv_visit (limit : Z) (path : string) (st : scanState) :
  scanInv limit st -> scanInv limit (visit path st).
Proof. intros H. exact H. Qed.

Lemma scanFn_inv (limit : Z) (path : string) (isDir : bool) (size : Z) (err : bool)
    (st : scanState) :
  scanInv limit st -> scanInv limit (fst (scanFn limit path isDir size err st)).
Proof.
  intros Hinv. pose proof (scanInv_visit limit path st Hinv) as Hv.
  unfold scanFn. destruct err; [exact Hv|].
  destruct isDir; [destruct (shouldExclude path); exact Hv|].
  destruct (detectMediaType path) eqn:Et; try exact Hv;
    (destruct (shouldExclude path) eqn:Ex; [exact Hv|]);
    (destruct ((limit >? 0) && (count (visit path st) >=? limit)) eqn:El; [exact Hv|]);
    destruct Hv as (Hall & Hcount & Hlim); simpl in *;
    (split; [|split]); simpl.
  all: try (apply List.Forall_app; split; [exact Hall|];
            constructor; [|constructor]; unfold scannedOk; simpl;
            rewrite Et; repeat split; try congruence;
            apply detect_known; congruence).
  all: try (rewrite List.length_app; simpl; lia).
  all: intros Hpos; apply andb_false_iff in El as [El|El]; lia.
Qed.

Lemma walk_inv (limit : Z) (n : fsnode) :
  forall path st, scanInv limit st -> scanInv limit (fst (walk limit path n st)).
Proof.
  induction n as [size|readable entries IH|] using fsnode_ind; intros path st Hinv.
  - apply scanFn_inv, Hinv.
  - rewrite walk_dir.
    pose proof (scanFn_inv limit path true 0 (negb readable) st Hinv) as H1.
    destruct (scanFn limit path true 0 (negb readable) st) as [st1 err1]. simpl in H1.
    destruct (negb readable); [exact H1|]. destruct err1; [|exact H1].
    clear Hinv st. revert st1 H1.
    induction IH as [|[name child] rest Hchild _ IHrest]; intros st1 H1; [exact H1|].
    simpl. simpl in Hchild.
    pose proof (Hchild (filepath.Join [path; name]) st1 H1) as H2.
    destruct (walk limit (filepath.Join [path; name]) child st1) as [st' err].
    simpl in H2. destruct child, err; try (apply IHrest, H2); exact H2.
  - apply scanFn_inv, Hinv.
Qed.

(** An excluded directory is entered by the walk and left at once: the
    closure is called on the directory and on nothing below it, and no
    record is added. *)
Lemma walk_excluded_dir (limit : Z) (path : string) (readable : bool)
    (entries : list (string * fsnode)) (st : scanState) :
  shouldExclude path = true ->
  fst (walk limit path (FsDir readable entries) st) = visit path st.
Proof.
  intros Hex. rewrite walk_dir. unfold scanFn.
  destruct readable; simpl; [rewrite Hex|]; reflexivity.
Qed.

(** The same inside a directory that is being walked: the entries after
    an excluded sub-directory are walked from the state in which the
    sub-directory was merely visited. *)
Lemma walk_entries_excluded (limit : Z) (path name : string) (readable : bool)
    (sub rest : list (string * fsnode)) (st : scanState) :
  shouldExclude (filepath.Join [path; name]) = true ->
  walk_entries limit path ((name, FsDir readable sub) :: rest) st =
  walk_entries limit path rest (visit (filepath.Join [path; name]) st).
Proof.
  intros Hex. cbn [walk_entries].
  pose proof (walk_excluded_dir limit (filepath.Join [path; name]) readable sub st Hex) as H.
  destruct (walk limit (filepath.Join [path; name]) (FsDir readable sub) st) as [st' err].
  simpl in H. subst st'. destruct err; reflexivity.
Qed.

(** C7: every record that the scanner returns has a type other than
    Unknown, namely the type of its extension, which is in one of the
    three tables; its path matches no exclusion pattern; a directory
    whose path matches one is not descended into; and a positive limit
    bounds the number of records. *)
Theorem scan_result_ok (basePath : string) (limit : Z) (root : fsnode) :
  (forall mf, In mf (ScanMediaFiles basePath limit root) ->
     MediaFile.Type_ mf <> TypeUnknown /\
     MediaFile.Type_ mf = detectMediaType (MediaFile.Path mf) /\
     knownExtension (MediaFile.Path mf) = true /\
     shouldExclude (MediaFile.Path mf) = false) /\
  (forall path readable entries st,
     shouldExclude path = true ->
     fst (walk limit path (FsDir readable entries) st) = visit path st) /\
  (0 < limit ->
     Z.of_nat (List.length (ScanMediaFiles basePath limit root)) <= limit).
Proof.
  assert (Hinv : scanInv limit (scanWalk basePath limit root)).
  { apply walk_inv. repeat split; simpl; [constructor|lia]. }
  destruct Hinv as (Hall & Hcount & Hlim). unfold ScanMediaFiles.
  split; [|split].
  - intros mf Hmf. rewrite List.Forall_forall in Hall. apply (Hall mf Hmf).
  - intros path readable entries st. apply walk_excluded_dir.
  - intros Hpos. rewrite <- Hcount. apply Hlim, Hpos.
Qed.

Lemma scan_result_ok_witness :
  Z.of_nat (List.length (ScanMediaFiles "/r" 1 exampleTree)) <= 1.
Proof.
  apply (proj2 (proj2 (scan_result_ok "/r" 1 exampleTree))). reflexivity.
Defined.

(** ** The cache: queue, writer and lookups *)

Lemma writerLoop_from_snoc (heap : gmap ptr MediaFile.t) (clock : nat -> Z) (n : nat) :
  forall i c,
    writerLoop_from heap clock i (S n) c =
    writerStep heap (clock (i + n)%nat) (writerLoop_from heap clock i n c).
Proof.
  induction n as [|n IH]; intros i c.
  - simpl. rewrite Nat.add_0_r. reflexivity.
  - change (writerLoop_from heap clock i (S (S n)) c)
      with (writerLoop_from heap clock (S i) (S n) (writerStep heap (clock i) c)).
    rewrite IH. simpl. replace (S (i + n)) with (i + S n)%nat by lia. reflexivity.
Qed.

Lemma writerStep_chan (heap : gmap ptr MediaFile.t) (now : Z) (c : Cache) :
  writeChan (writerStep heap now c) = tail (writeChan c).
Proof.
  unfold writerStep. destruct (writeChan c) as [|req rest] eqn:E; [rewrite E; reflexivity|].
  destruct (heap !! req_mf req); reflexivity.
Qed.

(** After as many steps as there are requests in [q], the requests queued
    behind [q] are what is left in the channel. *)
Lemma writerLoop_from_chan (heap : gmap ptr MediaFile.t) (clock : nat -> Z)
    (q rest : list cacheWriteRequest) :
  forall i c,
    writeChan c = (q ++ rest)%list ->
    writeChan (writerLoop_from heap clock i (List.length q) c) = rest.
Proof.
  induction q as [|req q IH]; intros i c Hc; simpl; [exact Hc|].
  apply IH. rewrite writerStep_chan, Hc. reflexivity.
Qed.

Lemma Put_ok (c c1 : Cache) (mf : ptr) (modTime : gotime.Time) :
  Put c mf modTime = (c1, true) ->
  c1 = mkCache (db c) (writeChan c ++ [mkReq mf modTime])%list (dblog c).
Proof.
  unfold Put. destruct (_ <? _)%nat; intros H; congruence.
Qed.

(** The state after the writer has served a queue that ends with the
    request for [mf]: that request was written last. *)
Lemma writerLoop_last (heap : gmap ptr MediaFile.t) (clock : nat -> Z)
    (c c1 : Cache) (p : ptr) (mf : MediaFile.t) (modTime : gotime.Time) :
  Put c p modTime = (c1, true) ->
  heap !! p = Some mf ->
  exists c' now,
    writerLoop heap clock c1 = writeToDatabase WriterGoroutine now c' mf modTime.
Proof.
  intros HPut Hheap. apply Put_ok in HPut. subst c1.
  unfold writerLoop. cbn [writeChan]. rewrite length_app. cbn [List.length].
  rewrite Nat.add_1_r, writerLoop_from_snoc.
  set (mid := writerLoop_from heap clock 0 (List.length (writeChan c)) _).
  assert (Hmid : writeChan mid = [mkReq p modTime]).
  { apply writerLoop_from_chan. reflexivity. }
  unfold writerStep. rewrite Hmid. cbn [req_mf req_modTime]. rewrite Hheap.
  eauto.
Qed.

Lemma Get_after_write (g : goroutine) (now : Z) (c : Cache) (mf : MediaFile.t)
    (modTime : gotime.Time) (size : Z) (t : gotime.Time) :
  snd (Get (writeToDatabase g now c mf modTime) (MediaFile.Path mf) size t) =
  if (MediaFile.Size mf =? size) && (gotime.Unix_of modTime =? gotime.Unix_of t)
  then Some (CachedFile.mk (MediaFile.Path mf) (MediaFile.Size mf)
               (gotime.Unix_of modTime) (MediaFile.Hash mf)
               (option_map truncSeconds (MediaFile.DateTaken mf))
               (MediaFile.CameraMake mf) (MediaFile.CameraModel mf)
               (MediaFile.Artist mf) (MediaFile.Album mf) (MediaFile.Title mf)
               (MediaFile.Width mf) (MediaFile.Height mf) now)
  else None.
Proof.
  unfold Get, writeToDatabase, logged. cbn [db]. rewrite lookup_insert_eq.
  cbn [r_size r_mod_time]. destruct (_ && _); [|reflexivity].
  cbn. destruct (MediaFile.DateTaken mf); reflexivity.
Qed.

(** C3 (as stated) fails at the sub-second part of the times: the
    capture date that comes back is not the one that was written, and a
    [Get] with another modification time of the same second is a hit. *)
Lemma round_trip_drops_subseconds :
  let written := gotime.mkTime 1600000000 0 in
  let c := writerLoop clipHeap (fun _ => 0) (fst (Put emptyCache 1%positive written)) in
  (exists cf,
     snd (Get c (MediaFile.Path clip) (MediaFile.Size clip) written) = Some cf /\
     CachedFile.DateTaken cf <> MediaFile.DateTaken clip) /\
  (exists other,
     other <> written /\
     snd (Get c (MediaFile.Path clip) (MediaFile.Size clip) other) <> None).
Proof.
  split.
  - eexists. split; [reflexivity|]. simpl. discriminate.
  - exists (gotime.mkTime 1600000000 7). split; discriminate.
Qed.

(** C3 (amended): once the writer has served a request that [Put]
    accepted, a [Get] with the path and size of the record, as it is when
    the writer serves the request, and a modification time of the same
    second finds an entry with the hash, camera, audio and dimension
    fields of the record and its capture date cut to whole seconds; with
    another size or a modification time of another second it finds
    nothing, although the row exists. *)
Theorem cache_round_trip (heap : gmap ptr MediaFile.t) (clock : nat -> Z)
    (c c1 : Cache) (p : ptr) (mf : MediaFile.t) (modTime : gotime.Time) :
  Put c p modTime = (c1, true) ->
  heap !! p = Some mf ->
  let c2 := writerLoop heap clock c1 in
  (forall t, gotime.Unix_of t = gotime.Unix_of modTime ->
     exists cf,
       snd (Get c2 (MediaFile.Path mf) (MediaFile.Size mf) t) = Some cf /\
       entryOf mf cf) /\
  (forall size t,
     size <> MediaFile.Size mf \/ gotime.Unix_of t <> gotime.Unix_of modTime ->
     snd (Get c2 (MediaFile.Path mf) size t) = None) /\
  is_Some (db c2 !! MediaFile.Path mf).
Proof.
  intros HPut Hheap c2.
  destruct (writerLoop_last heap clock c c1 p mf modTime HPut Hheap) as (c' & now & Hc2).
  subst c2. rewrite Hc2. split; [|split].
  - intros t Ht. rewrite Get_after_write, Ht, !Z.eqb_refl. simpl.
    eexists. split; [reflexivity|]. repeat split.
  - intros size t Hdiff. rewrite Get_after_write.
    destruct (MediaFile.Size mf =? size) eqn:E1; [|reflexivity].
    destruct (gotime.Unix_of modTime =? gotime.Unix_of t) eqn:E2; [|reflexivity].
    apply Z.eqb_eq in E1, E2. destruct Hdiff; congruence.
  - unfold writeToDatabase, logged. cbn [db]. rewrite lookup_insert_eq. eauto.
Qed.

Lemma cache_round_trip_witness :
  exists cf,
    snd (Get (writerLoop clipHeap (fun _ => 0)
                (fst (Put emptyCache 1%positive (gotime.mkTime 1600000000 0))))
             (MediaFile.Path clip) (MediaFile.Size clip)
             (gotime.mkTime 1600000000 7)) = Some cf /\
    entryOf clip cf.
Proof.
  refine (proj1 (cache_round_trip clipHeap (fun _ => 0) emptyCache _ 1%positive clip
                   (gotime.mkTime 1600000000 0) _ _) (gotime.mkTime 1600000000 7) _);
    reflexivity.
Defined.

(** A request names its record: a field changed between [Put] and the
    write is written as changed. *)
Example write_reads_record_late :
  let c1 := fst (Put emptyCache 1%positive (gotime.mkTime 1600000000 0)) in
  let hashed := MediaFile.mk "/src/clip.mov" 4096 "d9" TypeVideo
                  (Some (gotime.mkTime 1590000000 5)) "" "" "" "" "" 0 0 true in
  r_hash <$> db (writerLoop {[ 1%positive := hashed ]} (fun _ => 0) c1) !! "/src/clip.mov"
  = Some "d9".
Proof. reflexivity. Qed.

(** ** [PruneDeleted] *)

Lemma fold_delete_lookup_in (l : list string) :
  forall (m : gmap string row) p,
    In p l -> fold_left (fun t path => delete path t) l m !! p = None.
Proof.
  induction l as [|k l IH]; intros m p Hin; [destruct Hin|]. simpl.
  destruct (in_dec string_dec p l) as [Hl|Hl]; [apply IH, Hl|].
  destruct Hin as [->|Hin]; [|contradiction].
  clear IH. revert m. induction l as [|k l IH]; intros m; simpl.
  - apply lookup_delete_eq.
  - rewrite delete_delete. apply IH. intros H. apply Hl. right. exact H.
Qed.

Lemma fold_delete_lookup_notin (l : list string) :
  forall (m : gmap string row) p,
    ~ In p l -> fold_left (fun t path => delete path t) l m !! p = m !! p.
Proof.
  induction l as [|k l IH]; intros m p Hin; [reflexivity|]. simpl.
  rewrite IH by (intros H; apply Hin; right; exact H).
  apply lookup_delete_ne. intros ->. apply Hin. left. reflexivity.
Qed.

Lemma fold_delete_size (l : list string) :
  forall (m : gmap string row),
    List.NoDup l -> (forall k, In k l -> is_Some (m !! k)) ->
    (size (fold_left (fun t path => delete path t) l m) + List.length l = size m)%nat.
Proof.
  induction l as [|k l IH]; intros m Hnd Hin; simpl; [lia|].
  inversion Hnd as [|? ? Hk Hnd']; subst.
  rewrite Nat.add_succ_r, IH; [|exact Hnd'|].
  - destruct (Hin k (or_introl eq_refl)) as [r Hr].
    pose proof (map_size_delete_Some k m (ex_intro _ r Hr)).
    pose proof (map_size_ne_0_lookup_2 m k (ex_intro _ r Hr)). lia.
  - intros k' Hk'. rewrite lookup_delete_ne; [apply Hin; right; exact Hk'|].
    intros ->. contradiction.
Qed.

Lemma pruneList_In (c : Cache) (validPaths : gmap string bool) (p : string) :
  In p (pruneList c validPaths) <->
  is_Some (db c !! p) /\ map_bool validPaths p = false.
Proof.
  unfold pruneList. rewrite filter_In, negb_true_iff, in_map_iff. split.
  - intros [([k r] & <- & Hkr) Hv]. split; [|exact Hv].
    apply list_elem_of_In, elem_of_map_to_list in Hkr. simpl. eauto.
  - intros [[r Hr] Hv]. split; [|exact Hv]. exists (p, r). split; [reflexivity|].
    apply list_elem_of_In, elem_of_map_to_list, Hr.
Qed.

Lemma pruneList_NoDup (c : Cache) (validPaths : gmap string bool) :
  List.NoDup (pruneList c validPaths).
Proof.
  unfold pruneList. apply List.NoDup_filter.
  apply NoDup_ListNoDup. exact (NoDup_fst_map_to_list (db c)).
Qed.

(** The table after a run of [PruneDeleted] that meets no error. *)
Lemma PruneDeleted_db (c : Cache) (validPaths : gmap string bool) :
  db (fst (PruneDeleted NoFault c validPaths)) =
  fold_left (fun t path => delete path t) (pruneList c validPaths) (db c).
Proof.
  unfold PruneDeleted. destruct (pruneList c validPaths); reflexivity.
Qed.

Lemma PruneDeleted_count (c : Cache) (validPaths : gmap string bool) :
  snd (PruneDeleted NoFault c validPaths) =
  (Z.of_nat (List.length (pruneList c validPaths)), false).
Proof.
  unfold PruneDeleted. destruct (pruneList c validPaths); reflexivity.
Qed.

(** C5: a run of [PruneDeleted] that meets no error of the store keeps
    every row whose path is in [validPaths], removes every other row, and
    returns the number of rows removed; the deletions are one write
    statement (the transaction), and a run that does meet an error
    returns zero and leaves the table as it was. *)
Theorem prune_removes_exactly (c : Cache) (validPaths : gmap string bool) :
  let c' := fst (PruneDeleted NoFault c validPaths) in
  let n := fst (snd (PruneDeleted NoFault c validPaths)) in
  snd (snd (PruneDeleted NoFault c validPaths)) = false /\
  (forall p, map_bool validPaths p = true -> db c' !! p = db c !! p) /\
  (forall p, map_bool validPaths p = false -> db c' !! p = None) /\
  n = Z.of_nat (size (db c)) - Z.of_nat (size (db c')) /\
  (List.length (writesSince c c') <= 1)%nat /\
  (forall fault,
     snd (snd (PruneDeleted fault c validPaths)) = true ->
     db (fst (PruneDeleted fault c validPaths)) = db c /\
     fst (snd (PruneDeleted fault c validPaths)) = 0).
Proof.
  intros c' n. subst c' n. rewrite PruneDeleted_db, PruneDeleted_count. cbn [fst snd].
  split; [reflexivity|]. split; [|split; [|split; [|split]]].
  - intros p Hp. apply fold_delete_lookup_notin.
    rewrite pruneList_In. intros [_ H]. congruence.
  - intros p Hp. destruct (db c !! p) as [r|] eqn:E.
    + apply fold_delete_lookup_in, pruneList_In. eauto.
    + rewrite fold_delete_lookup_notin; [exact E|].
      rewrite pruneList_In. intros [[r Hr] _]. congruence.
  - pose proof (fold_delete_size (pruneList c validPaths) (db c)
                  (pruneList_NoDup c validPaths)) as H.
    rewrite <- H; [lia|]. intros k Hk. apply pruneList_In in Hk. tauto.
  - unfold writesSince, PruneDeleted, logged.
    destruct (pruneList c validPaths); cbn [fst dblog writeChan];
      rewrite <- ?app_assoc, skipn_app, skipn_all, Nat.sub_diag; simpl; lia.
  - intros fault. unfold PruneDeleted.
    destruct fault, (pruneList c validPaths); cbn; intros H;
      try discriminate; split; reflexivity.
Qed.

(** A set of valid paths that covers half of the rows: the other half is
    removed and counted. *)
Example prune_half :
  snd (PruneDeleted NoFault fourRows halfValid) = (2, false) /\
  dom (db (fst (PruneDeleted NoFault fourRows halfValid))) = ({["/a"; "/c"]} : gset string).
Proof. split; [reflexivity|]. apply set_eq. intros k. by vm_compute. Qed.

Lemma prune_removes_exactly_witness :
  db (fst (PruneDeleted NoFault fourRows halfValid)) !! "/b" = None.
Proof.
  apply (proj1 (proj2 (proj2 (prune_removes_exactly fourRows halfValid)))).
  reflexivity.
Defined.

(** ** Who writes to the store *)

Lemma writerOnly_app (l1 l2 : list (goroutine * statement)) :
  writerOnly (l1 ++ l2)%list <-> writerOnly l1 /\ writerOnly l2.
Proof.
  unfold writerOnly. split.
  - intros H. split; intros g s Hin; apply H, in_or_app; auto.
  - intros [H1 H2] g s Hin. apply in_app_or in Hin as [Hin|Hin]; eauto.
Qed.

(** [Put] runs no statement at all. *)
Lemma Put_log (c : Cache) (mf : ptr) (modTime : gotime.Time) :
  dblog (fst (Put c mf modTime)) = dblog c.
Proof. unfold Put. destruct (_ <? _)%nat; reflexivity. Qed.

(** [Get] only reads. *)
Lemma Get_log (c : Cache) (path : string) (size : Z) (t : gotime.Time) :
  writerOnly (dblog c) -> writerOnly (dblog (fst (Get c path size t))).
Proof.
  intros H. unfold Get.
  assert (Hl : writerOnly (dblog (logged CallerGoroutine (SelectRow path) c))).
  { apply writerOnly_app. split; [exact H|].
    intros g s [E|[]] Hw. injection E as <- <-. discriminate. }
  destruct (db c !! path) as [r|]; [destruct (_ && _)|]; exact Hl.
Qed.

(** The writer loop writes on the writer goroutine. *)
Lemma writerStep_log (heap : gmap ptr MediaFile.t) (now : Z) (c : Cache) :
  writerOnly (dblog c) -> writerOnly (dblog (writerStep heap now c)).
Proof.
  intros H. unfold writerStep. destruct (writeChan c) as [|req rest]; [exact H|].
  destruct (heap !! req_mf req) as [mf|]; [|exact H].
  unfold writeToDatabase, logged. cbn [dblog]. apply writerOnly_app. split; [exact H|].
  intros g s [E|[]] _. injection E as <- <-. reflexivity.
Qed.

Lemma writerLoop_log (heap : gmap ptr MediaFile.t) (clock : nat -> Z) (c : Cache) :
  writerOnly (dblog c) -> writerOnly (dblog (writerLoop heap clock c)).
Proof.
  unfold writerLoop. generalize (List.length (writeChan c)) as n, 0%nat as i.
  intros n. revert c. induction n as [|n IH]; intros c i H; simpl; [exact H|].
  apply IH, writerStep_log, H.
Qed.

(** [UpdatePath] deletes the old row on the goroutine of its caller. *)
Lemma UpdatePath_log (c : Cache) (oldPath : string) (mf : ptr) (modTime : gotime.Time) :
  dblog (UpdatePath c oldPath mf modTime) =
  (dblog c ++ [(CallerGoroutine, DeleteRow oldPath)])%list.
Proof. unfold UpdatePath. rewrite Put_log. reflexivity. Qed.

Lemma UpdatePath_not_writerOnly (c : Cache) (oldPath : string) (mf : ptr)
    (modTime : gotime.Time) :
  ~ writerOnly (dblog (UpdatePath c oldPath mf modTime)).
Proof.
  rewrite UpdatePath_log. intros H.
  specialize (H CallerGoroutine (DeleteRow oldPath)).
  discriminate H; [apply in_or_app; right; left; reflexivity|reflexivity].
Qed.

(** [PruneDeleted] runs its transaction on the goroutine of its caller. *)
Lemma PruneDeleted_not_writerOnly (c : Cache) (validPaths : gmap string bool) :
  pruneList c validPaths <> [] ->
  ~ writerOnly (dblog (fst (PruneDeleted NoFault c validPaths))).
Proof.
  intros Hne H. unfold PruneDeleted in H.
  destruct (pruneList c validPaths) as [|p l] eqn:E; [congruence|].
  cbn [fst] in H. specialize (H CallerGoroutine (DeleteTx (p :: l))).
  discriminate H; [|reflexivity].
  unfold logged. cbn [dblog]. apply in_or_app. right. left. reflexivity.
Qed.

(** C1, on the code: after a move, [UpdatePath] runs its [DELETE] on the
    goroutine of its caller while the writer goroutine serves the queue;
    and [PruneDeleted] runs its delete transaction on the goroutine of its
    caller as well.  Only the inserts that [Put] queues are written by the
    writer. *)
Theorem writes_outside_the_writer :
  let afterMove := UpdatePath beforeMove "/src/Trip/a.jpg" 1%positive
                              (gotime.mkTime 1600000000 0) in
  let afterWriter := writerLoop movedHeap (fun _ => 1600000001) afterMove in
  dblog afterWriter =
    [(CallerGoroutine, DeleteRow "/src/Trip/a.jpg");
     (WriterGoroutine, InsertOrReplace "/lib/Photos/2020/Trip/a.jpg")] /\
  ~ writerOnly (dblog afterWriter) /\
  dblog (fst (PruneDeleted NoFault fourRows halfValid)) =
    [(CallerGoroutine, SelectPaths); (CallerGoroutine, DeleteTx ["/b"; "/d"])] /\
  ~ writerOnly (dblog (fst (PruneDeleted NoFault fourRows halfValid))).
Proof.
  cbv zeta. split; [reflexivity|]. split; [|split; [reflexivity|]].
  - intros H. specialize (H CallerGoroutine (DeleteRow "/src/Trip/a.jpg")).
    discriminate H; [left; reflexivity|reflexivity].
  - apply PruneDeleted_not_writerOnly. discriminate.
Qed.

(** ** The prune pass of the drivers *)

(** [PruneDeleted] is called exactly when a cache is open and the run is
    uncapped or pruning was asked for. *)
Lemma prunePass_called (fault : dbFault) (config : Config.t) (cache : option Cache)
    (files : list MediaFile.t) :
  snd (prunePass fault config cache files) <> None <->
  cache <> None /\ (Config.FileLimit config = 0 \/ Config.PruneCache config = true).
Proof.
  unfold prunePass. destruct cache as [c|]; [|simpl; split; [congruence|tauto]].
  destruct (Config.FileLimit config =? 0) eqn:E1; simpl.
  - apply Z.eqb_eq in E1.
    destruct (PruneDeleted fault c (validPathsOf files)) as [c' res]. simpl.
    split; [intros _; split; [congruence|auto]|congruence].
  - apply Z.eqb_neq in E1. destruct (Config.PruneCache config) eqn:E2.
    + destruct (PruneDeleted fault c (validPathsOf files)) as [c' res]. simpl.
      split; [intros _; split; [congruence|auto]|congruence].
    + simpl. split; [congruence|]. intros [_ [H|H]]; congruence.
Qed.

(** C4 (as stated) fails: a run capped at one file that was started with
    the prune-cache flag calls [PruneDeleted]; the row of a file that is
    on disk, but beyond the cap, is deleted. *)
Lemma capped_run_prunes :
  0 < Config.FileLimit cappedPruning /\
  snd (runCLI_scan_prune NoFault cappedPruning (Some scannedBefore) exampleTree)
  = Some (1, false) /\
  (exists c', snd (fst (runCLI_scan_prune NoFault cappedPruning (Some scannedBefore)
                          exampleTree)) = Some c' /\
              db c' !! "/r/b/5.mov" = None).
Proof. split; [reflexivity|]. split; [reflexivity|]. eexists. split; reflexivity. Qed.

(** C4 (amended): in a run with a positive file limit and without the
    prune-cache flag, [PruneDeleted] is not called and the cache is left
    as it was. *)
Theorem capped_run_without_flag_never_prunes (fault : dbFault) (config : Config.t)
    (cache : option Cache) (root : fsnode) :
  0 < Config.FileLimit config ->
  Config.PruneCache config = false ->
  snd (runCLI_scan_prune fault config cache root) = None /\
  snd (fst (runCLI_scan_prune fault config cache root)) = cache.
Proof.
  intros Hcap Hflag. unfold runCLI_scan_prune, prunePass.
  destruct cache as [c|]; [|split; reflexivity].
  rewrite Hflag. replace (Config.FileLimit config =? 0) with false
    by (symmetry; apply Z.eqb_neq; lia).
  split; reflexivity.
Qed.

Lemma capped_run_without_flag_never_prunes_witness :
  snd (runCLI_scan_prune NoFault cappedPlain (Some fourRows) exampleTree) = None /\
  snd (fst (runCLI_scan_prune NoFault cappedPlain (Some fourRows) exampleTree))
  = Some fourRows.
Proof.
  apply (capped_run_without_flag_never_prunes NoFault cappedPlain (Some fourRows)
           exampleTree); reflexivity.
Defined.

(** ** core_organizer.go: grouping *)

Lemma default_map_append {V : Type} (k k' : string) (x : V) (m : gmap string (list V)) :
  default [] (map_append k x m !! k') =
  (default [] (m !! k') ++ if String.eqb k k' then [x] else [])%list.
Proof.
  rewrite map_append_lookup. destruct (decide (k = k')) as [->|Hne].
  - rewrite String.eqb_refl. reflexivity.
  - apply String.eqb_neq in Hne. rewrite Hne, app_nil_r. reflexivity.
Qed.

Lemma groupByDirectory_lookup (files : list MediaFile.t) (dir : string) :
  default [] (groupByDirectory files !! dir) = List.filter (inDirectory dir) files.
Proof.
  unfold groupByDirectory.
  change (List.filter (inDirectory dir) files)
    with (default [] ((∅ : gmap string (list MediaFile.t)) !! dir)
          ++ List.filter (inDirectory dir) files)%list.
  generalize (∅ : gmap string (list MediaFile.t)) as acc.
  induction files as [|mf files IH]; intros acc; simpl; [rewrite app_nil_r; reflexivity|].
  rewrite IH. unfold inDirectory at 2.
  destruct (MediaFile.Type_ mf); simpl; rewrite ?default_map_append, <- ?app_assoc;
    try reflexivity; destruct (String.eqb _ dir); reflexivity.
Qed.

Lemma groupByAlbum_lookup (files : list MediaFile.t) (key : string) :
  default [] (groupByAlbum files !! key) = List.filter (underKey key) files.
Proof.
  unfold groupByAlbum.
  change (List.filter (underKey key) files)
    with (default [] ((∅ : gmap string (list MediaFile.t)) !! key)
          ++ List.filter (underKey key) files)%list.
  generalize (∅ : gmap string (list MediaFile.t)) as acc.
  induction files as [|mf files IH]; intros acc; simpl; [rewrite app_nil_r; reflexivity|].
  rewrite IH. unfold underKey at 2.
  destruct (MediaFile.Type_ mf); simpl; rewrite ?default_map_append, <- ?app_assoc;
    try reflexivity; destruct (String.eqb _ key); reflexivity.
Qed.

(** A key with records is a key of the map, so a [range] yields it. *)
Lemma range_order_In {V : Type} (order : list string) (m : gmap string (list V))
    (k : string) :
  range_order order m -> default [] (m !! k) <> [] -> In k order.
Proof.
  intros [_ H] Hne. apply H. destruct (m !! k); [eauto|]. contradiction.
Qed.

(** A checkable form of [range_order]. *)
Lemma range_order_dom {V : Type} (order : list string) (m : gmap string V) :
  NoDup order -> (list_to_set order : gset string) = dom m -> range_order order m.
Proof.
  intros Hnd Hdom. split; [exact Hnd|]. intros k.
  rewrite <- elem_of_dom, <- Hdom, elem_of_list_to_set, list_elem_of_In. reflexivity.
Qed.

(** ** [organizeMusicFiles] *)

Lemma append_cons (c : ascii) (s t : string) : String c s ++ t = String c (s ++ t).
Proof. reflexivity. Qed.

Lemma append_nil (t : string) : "" ++ t = t.
Proof. reflexivity. Qed.

Lemma prefix_sep_app (a b : string) :
  String.prefix " - " (a ++ " - " ++ b) = true ->
  a = "" \/ gostrings.HasSuffix a " -" = true \/ gostrings.Contains a " - " = true.
Proof.
  destruct a as [|c1 [|c2 [|c3 a]]]; [auto|..];
    rewrite ?append_cons, ?append_nil;
    cbn [String.prefix gostrings.HasSuffix gostrings.Contains];
    repeat match goal with
           | |- context [ascii_dec ?x ?y] =>
               destruct (ascii_dec x y) as [?|?]; subst; try discriminate
           end;
    auto.
  intros _. right; right. destruct a; reflexivity.
Qed.

Lemma prefix_app (s t : string) : String.prefix s (s ++ t) = true.
Proof.
  induction s as [|c s IH]; [destruct t; reflexivity|].
  rewrite append_cons. cbn [String.prefix].
  destruct (ascii_dec c c); [exact IH|congruence].
Qed.

Lemma Cut_unfold (s sep : string) :
  gostrings.Cut s sep =
  if String.prefix sep s then Some ("", gostrings.drop (String.length sep) s)
  else match s with
       | EmptyString => None
       | String c s' =>
           match gostrings.Cut s' sep with
           | Some (before, after) => Some (String c before, after)
           | None => None
           end
       end.
Proof. destruct s; reflexivity. Qed.

Lemma Cut_sep (b : string) : gostrings.Cut (" - " ++ b) " - " = Some ("", b).
Proof. rewrite Cut_unfold, prefix_app. reflexivity. Qed.

(** The key of a record splits back into its two halves when the artist
    neither contains the separator nor ends with its first two bytes. *)
Lemma Cut_key (a b : string) :
  gostrings.Contains a " - " = false ->
  gostrings.HasSuffix a " -" = false ->
  gostrings.Cut (a ++ " - " ++ b) " - " = Some (a, b).
Proof.
  induction a as [|c a IH]; intros Hc Hs; [apply Cut_sep|].
  destruct (String.prefix " - " (String c a ++ " - " ++ b)) eqn:Ep.
  - apply prefix_sep_app in Ep as [E|[E|E]]; congruence.
  - rewrite Cut_unfold, Ep, append_cons.
    cbn [gostrings.Contains gostrings.HasSuffix] in Hc, Hs.
    apply orb_false_iff in Hc as [_ Hc], Hs as [_ Hs].
    rewrite (IH Hc Hs). reflexivity.
Qed.

Lemma musicParts_key (mf : MediaFile.t) :
  gostrings.Contains (musicArtist mf) " - " = false ->
  gostrings.HasSuffix (musicArtist mf) " -" = false ->
  musicParts (musicKey mf) = (musicArtist mf, musicAlbum mf).
Proof.
  intros Hc Hs. unfold musicParts, musicKey, gostrings.SplitN2.
  rewrite (Cut_key _ _ Hc Hs). reflexivity.
Qed.

(** Every key holds the separator, so both [parts[0]] and [parts[1]]
    exist: the indexing in the source does not panic. *)
Lemma Cut_key_some (a b : string) :
  exists before after, gostrings.Cut (a ++ " - " ++ b) " - " = Some (before, after).
Proof.
  induction a as [|c a [before [after IH]]]; [rewrite append_nil, Cut_sep; eauto|].
  rewrite Cut_unfold, append_cons. destruct (String.prefix _ _); [eauto|].
  rewrite IH. eauto.
Qed.

Lemma SplitN2_key_length (mf : MediaFile.t) :
  List.length (gostrings.SplitN2 (musicKey mf) " - ") = 2%nat.
Proof.
  unfold gostrings.SplitN2, musicKey.
  destruct (Cut_key_some (musicArtist mf) (musicAlbum mf)) as (x & y & ->). reflexivity.
Qed.

(** Every audio record is in the album of its key. *)
Lemma music_record_album (order : list string) (files : list MediaFile.t)
    (config : Config.t) (mf : MediaFile.t) :
  range_order order (groupByAlbum files) ->
  In mf files -> MediaFile.Type_ mf = TypeMusic ->
  exists a,
    In a (organizeMusicFiles order files config) /\
    Album.Name a = musicKey mf /\
    In mf (Album.Files a) /\
    Album.Destination a =
      filepath.Join [Config.LibraryBase config; "Music";
                     fst (musicParts (musicKey mf)); snd (musicParts (musicKey mf))].
Proof.
  intros Hord Hin Hty.
  assert (Hmem : In mf (default [] (groupByAlbum files !! musicKey mf))).
  { rewrite groupByAlbum_lookup. apply filter_In. split; [exact Hin|].
    unfold underKey. rewrite Hty, String.eqb_refl. reflexivity. }
  exists (musicAlbumOf config (musicKey mf) (default [] (groupByAlbum files !! musicKey mf))).
  split; [|repeat split; assumption].
  unfold organizeMusicFiles. apply in_map_iff. eexists. split; [reflexivity|].
  apply (range_order_In order (groupByAlbum files)); [exact Hord|].
  intros E. rewrite E in Hmem. destruct Hmem.
Qed.

Lemma musicArtist_clean (mf : MediaFile.t) :
  gostrings.Contains (MediaFile.Artist mf) " - " = false ->
  gostrings.HasSuffix (MediaFile.Artist mf) " -" = false ->
  gostrings.Contains (musicArtist mf) " - " = false /\
  gostrings.HasSuffix (musicArtist mf) " -" = false.
Proof.
  intros Hc Hs. unfold musicArtist.
  destruct (String.eqb (MediaFile.Artist mf) ""); [split; reflexivity|auto].
Qed.

(** The albums that hold an audio record are those of its key. *)
Lemma music_album_of_record (order : list string) (files : list MediaFile.t)
    (config : Config.t) (mf : MediaFile.t) (a : Album.t) :
  In a (organizeMusicFiles order files config) ->
  In mf (Album.Files a) ->
  a = musicAlbumOf config (musicKey mf) (List.filter (underKey (musicKey mf)) files).
Proof.
  unfold organizeMusicFiles. rewrite in_map_iff. intros (name & <- & _) Hmf.
  cbn [musicAlbumOf Album.Files] in Hmf. rewrite groupByAlbum_lookup in Hmf |- *.
  apply filter_In in Hmf as [_ Hk]. unfold underKey in Hk.
  apply andb_true_iff in Hk as [_ Hk]. apply String.eqb_eq in Hk. rewrite Hk.
  reflexivity.
Qed.

(** C10 (as stated) fails: the artist "A -" does not contain the
    separator, yet its key "A - - B" splits after "A", and the record goes
    to Music/A/- B. *)
Lemma trailing_dash_artist_misplaced :
  gostrings.Contains (MediaFile.Artist dashArtist) " - " = false /\
  exists a,
    In a (organizeMusicFiles [musicKey dashArtist] [dashArtist] libConfig) /\
    In dashArtist (Album.Files a) /\
    Album.Destination a = "/lib/Music/A/- B" /\
    Album.Destination a <>
      filepath.Join [Config.LibraryBase libConfig; "Music";
                     musicArtist dashArtist; musicAlbum dashArtist].
Proof.
  split; [reflexivity|]. eexists. split; [left; reflexivity|].
  split; [left; reflexivity|]. split; [reflexivity|]. discriminate.
Qed.

(** C10 (amended): an audio record whose artist neither contains " - "
    nor ends with " -" is in an album, and every album that holds it has
    the destination Music/{artist}/{album}, with the "Unknown" names for
    empty fields; and there is a record whose artist contains " - " for
    which the artist and album read back from the key, and with them the
    destination, are not those of the record. *)
Theorem music_destination :
  (forall order files config mf,
     range_order order (groupByAlbum files) ->
     In mf files -> MediaFile.Type_ mf = TypeMusic ->
     gostrings.Contains (MediaFile.Artist mf) " - " = false ->
     gostrings.HasSuffix (MediaFile.Artist mf) " -" = false ->
     (exists a, In a (organizeMusicFiles order files config) /\ In mf (Album.Files a)) /\
     (forall a, In a (organizeMusicFiles order files config) -> In mf (Album.Files a) ->
        Album.Destination a =
          filepath.Join [Config.LibraryBase config; "Music";
                         musicArtist mf; musicAlbum mf])) /\
  (exists mf a,
     gostrings.Contains (MediaFile.Artist mf) " - " = true /\
     In a (organizeMusicFiles [musicKey mf] [mf] libConfig) /\
     In mf (Album.Files a) /\
     musicParts (Album.Name a) <> (musicArtist mf, musicAlbum mf) /\
     Album.Destination a <>
       filepath.Join [Config.LibraryBase libConfig; "Music";
                      musicArtist mf; musicAlbum mf]).
Proof.
  split.
  - intros order files config mf Hord Hin Hty Hc Hs.
    destruct (musicArtist_clean mf Hc Hs) as [Hc' Hs'].
    split.
    + destruct (music_record_album order files config mf Hord Hin Hty)
        as (a & Ha & _ & Hmf & _). eauto.
    + intros a Ha Hmf. rewrite (music_album_of_record order files config mf a Ha Hmf).
      cbn [musicAlbumOf Album.Destination].
      pose proof (musicParts_key mf Hc' Hs') as Hp. unfold musicParts in Hp.
      injection Hp as -> ->. reflexivity.
  - exists splitArtist. eexists. split; [reflexivity|].
    split; [left; reflexivity|]. split; [left; reflexivity|].
    split; discriminate.
Qed.

Lemma music_destination_witness :
  exists a,
    In a (organizeMusicFiles [musicKey plainArtist] [plainArtist] libConfig) /\
    In plainArtist (Album.Files a) /\
    Album.Destination a =
      filepath.Join [Config.LibraryBase libConfig; "Music";
                     musicArtist plainArtist; musicAlbum plainArtist].
Proof.
  assert (Hord : range_order [musicKey plainArtist] (groupByAlbum [plainArtist])).
  { apply range_order_dom; compute_done. }
  destruct (proj1 music_destination [musicKey plainArtist] [plainArtist] libConfig
              plainArtist Hord (or_introl eq_refl) eq_refl eq_refl eq_refl)
    as [(a & Ha & Hmf) Hdest].
  exists a. split; [exact Ha|]. split; [exact Hmf|]. apply Hdest; assumption.
Defined.

(** ** [OrganizeIntoAlbums]: the main loop *)

Section OrganizeLoop.
Context (ext : external) (config : Config.t)
        (cache0 : option AlbumSuggestionCache) (files : list MediaFile.t).

Local Abbreviation dirFiles d := (List.filter (inDirectory d) files).
Local Abbreviation nameOf d := (nameOfDir ext config cache0 files d).

(** The name chosen for a folder depends on the cache only through the
    entry of that folder, and the choice changes no other entry. *)
Lemma suggestName_cacheAt (ac ac' : option AlbumSuggestionCache) (d ym : string)
    (fs : list MediaFile.t) :
  cacheAt ac d = cacheAt ac' d ->
  fst (suggestName ext config ac d fs ym) = fst (suggestName ext config ac' d fs ym).
Proof.
  intros H. unfold suggestName. destruct (CheckOllamaAvailable ext); [|reflexivity].
  destruct ac as [a|], ac' as [a'|]; try discriminate; cbn in H.
  - injection H as H. unfold AlbumSuggestionCache_Get. rewrite H.
    destruct (a' !! d) as [[cs sg]|]; [destruct (String.eqb cs _); [reflexivity|]|];
      destruct (SuggestAlbumName ext _ _ _) as [s|]; try reflexivity;
      destruct (negb (String.eqb s "")); reflexivity.
  - destruct (SuggestAlbumName ext _ _ _) as [s|]; try reflexivity;
      destruct (negb (String.eqb s "")); reflexivity.
Qed.

Lemma suggestName_cache_other (ac : option AlbumSuggestionCache) (d d' ym : string)
    (fs : list MediaFile.t) :
  d <> d' ->
  cacheAt (snd (suggestName ext config ac d fs ym)) d' = cacheAt ac d'.
Proof.
  intros Hne. unfold suggestName. destruct (CheckOllamaAvailable ext); [|reflexivity].
  destruct (match ac with Some a => _ | None => None end); [reflexivity|].
  destruct (SuggestAlbumName ext _ _ _) as [s|]; [|reflexivity].
  destruct (negb (String.eqb s "")); [|reflexivity].
  destruct ac as [a|]; [|reflexivity]. cbn. f_equal.
  unfold AlbumSuggestionCache_Put. apply lookup_insert_ne, Hne.
Qed.

(** The first record of a directory that takes part is no audio record. *)
Lemma firstType_dir (d : string) :
  qualifies files d = true -> isMusic (firstType (dirFiles d)) = false.
Proof.
  unfold qualifies. intros Hq.
  destruct (dirFiles d) as [|mf l] eqn:E; [discriminate|].
  assert (Hin : In mf (dirFiles d)) by (rewrite E; left; reflexivity).
  apply filter_In in Hin as [_ Hin]. unfold inDirectory in Hin.
  apply andb_true_iff in Hin as [Hin _]. apply negb_true_iff in Hin. exact Hin.
Qed.

Lemma mergedDirs_snoc (done : list string) (d n : string) :
  mergedDirs ext config cache0 files (done ++ [d]) n =
  (mergedDirs ext config cache0 files done n ++
   if qualifies files d && String.eqb (nameOf d) n then [d] else [])%list.
Proof.
  unfold mergedDirs. rewrite List.filter_app. reflexivity.
Qed.

Lemma loopInv_start : loopInv ext config cache0 files [] (mkOrg [] ∅ cache0).
Proof.
  unfold loopInv. cbn [albums albumsByName albumCache].
  split; [|split; [|split]].
  - intros n i H. rewrite lookup_empty in H. discriminate.
  - intros i a H. destruct i; discriminate.
  - intros d [].
  - reflexivity.
Qed.

Lemma organizeDir_inv (done : list string) (st : organizeState) (d : string) :
  loopInv ext config cache0 files done st ->
  ~ In d done ->
  loopInv ext config cache0 files (done ++ [d])
          (organizeDir ext config (groupByDirectory files) st d).
Proof.
  intros (I1 & I2 & I3 & I4) Hd.
  unfold organizeDir. rewrite groupByDirectory_lookup.
  destruct (List.length (dirFiles d) <? 3)%nat eqn:Hq.
  { (* the directory is skipped *)
    assert (Hq' : qualifies files d = false) by (unfold qualifies; rewrite Hq; reflexivity).
    split; [exact I1|]. split; [|split].
    - intros i a Ha. destruct (I2 i a Ha) as (? & ? & ? & ?).
      rewrite mergedDirs_snoc, Hq', app_nil_r. auto.
    - intros d' Hin Hq2. apply in_app_or in Hin as [Hin|[<-|[]]]; [auto|congruence].
    - intros d' Hin. apply I4. intros H. apply Hin, in_or_app. auto. }
  assert (Hq' : qualifies files d = true) by (unfold qualifies; rewrite Hq; reflexivity).
  assert (Hname : fst (suggestName ext config (albumCache st) d (dirFiles d)
                         (yearMonthOf (medianDateOf (dirFiles d)))) = nameOf d).
  { apply suggestName_cacheAt, I4, Hd. }
  pose proof (fun d' (Hne : d <> d') =>
                suggestName_cache_other (albumCache st) d d'
                  (yearMonthOf (medianDateOf (dirFiles d))) (dirFiles d) Hne) as Hother.
  destruct (suggestName ext config (albumCache st) d (dirFiles d)
              (yearMonthOf (medianDateOf (dirFiles d)))) as [albumName cache'].
  cbn [fst snd] in Hname, Hother. subst albumName.
  assert (Hcache : forall d', ~ In d' (done ++ [d]) -> cacheAt cache' d' = cacheAt cache0 d').
  { intros d' Hin. rewrite Hother.
    - apply I4. intros H. apply Hin, in_or_app. auto.
    - intros ->. apply Hin, in_or_app. right. left. reflexivity. }
  destruct (albumsByName st !! nameOf d) as [i|] eqn:Hidx.
  - (* merged into the album at index [i] *)
    destruct (I1 _ _ Hidx) as (a0 & Ha0 & Hn0).
    split; [|split; [|split]]; cbn [albums albumsByName albumCache].
    + intros n j Hj. destruct (I1 n j Hj) as (a & Ha & Hn).
      destruct (decide (i = j)) as [<-|Hne].
      * rewrite list_lookup_alter_eq, Ha. eexists. split; [reflexivity|]. exact Hn.
      * rewrite list_lookup_alter_ne by exact Hne. eauto.
    + intros j a Ha. destruct (decide (i = j)) as [<-|Hne].
      * rewrite list_lookup_alter_eq, Ha0 in Ha. injection Ha as <-.
        destruct (I2 i a0 Ha0) as (Hi & Hs & Hf & Ht). cbn.
        rewrite Hn0 in Hi, Hs |- *.
        rewrite mergedDirs_snoc, Hq', String.eqb_refl. cbn.
        repeat split; try assumption.
        -- rewrite Hs. reflexivity.
        -- rewrite List.flat_map_app, <- Hf. cbn. rewrite app_nil_r. reflexivity.
      * rewrite list_lookup_alter_ne in Ha by exact Hne.
        destruct (I2 j a Ha) as (Hi & Hs & Hf & Ht).
        repeat split; try assumption.
        rewrite mergedDirs_snoc.
        destruct (String.eqb (nameOf d) (Album.Name a)) eqn:En.
        -- apply String.eqb_eq in En. rewrite <- En, Hidx in Hi. congruence.
        -- rewrite andb_false_r, app_nil_r. exact Hs.
    + intros d' Hin Hq2. apply in_app_or in Hin as [Hin|[<-|[]]]; [auto|eauto].
    + exact Hcache.
  - (* a new album *)
    split; [|split; [|split]]; cbn [albums albumsByName albumCache].
    + intros n j Hj. destruct (decide (nameOf d = n)) as [<-|Hne].
      * rewrite lookup_insert_eq in Hj. injection Hj as <-.
        rewrite list_lookup_middle by reflexivity. eexists. split; reflexivity.
      * rewrite lookup_insert_ne in Hj by exact Hne.
        destruct (I1 n j Hj) as (a & Ha & Hn). exists a. split; [|exact Hn].
        apply lookup_app_l_Some, Ha.
    + intros j a Ha. apply lookup_app_Some in Ha as [Ha|[Hlen Ha]].
      * destruct (I2 j a Ha) as (Hi & Hs & Hf & Ht).
        assert (Hne : nameOf d <> Album.Name a) by (intros E; rewrite E in Hidx; congruence).
        rewrite lookup_insert_ne by exact Hne.
        repeat split; try assumption.
        rewrite mergedDirs_snoc. apply String.eqb_neq in Hne.
        rewrite Hne, andb_false_r, app_nil_r. exact Hs.
      * apply list_lookup_singleton_Some in Ha as [Hj <-]. cbn.
        replace j with (List.length (albums st)) by lia.
        rewrite lookup_insert_eq, mergedDirs_snoc, Hq', String.eqb_refl. cbn.
        assert (Hnone : mergedDirs ext config cache0 files done (nameOf d) = []).
        { unfold mergedDirs.
          destruct (List.filter _ done) as [|d' l] eqn:E; [reflexivity|]. exfalso.
          assert (Hin : In d' (List.filter
                       (fun d0 => qualifies files d0 &&
                                  String.eqb (nameOfDir ext config cache0 files d0) (nameOf d))
                       done)) by (rewrite E; left; reflexivity).
          apply filter_In in Hin as [Hin Hp]. apply andb_true_iff in Hp as [Hp1 Hp2].
          apply String.eqb_eq in Hp2. destruct (I3 d' Hin Hp1) as [k Hk].
          rewrite Hp2 in Hk. congruence. }
        rewrite Hnone. repeat split.
        -- cbn. rewrite app_nil_r. reflexivity.
        -- apply firstType_dir, Hq'.
    + intros d' Hin Hq2. apply in_app_or in Hin as [Hin|[<-|[]]].
      * destruct (decide (nameOf d = nameOf d')) as [E|Hne].
        -- rewrite <- E, lookup_insert_eq. eauto.
        -- rewrite lookup_insert_ne by exact Hne. auto.
      * rewrite lookup_insert_eq. eauto.
    + exact Hcache.
Qed.

Lemma organizeLoop_inv (order : list string) :
  NoDup order ->
  loopInv ext config cache0 files order (organizeLoop ext config cache0 order files).
Proof.
  intros Hnd. unfold organizeLoop.
  assert (G : forall rest done st,
             NoDup (done ++ rest) -> loopInv ext config cache0 files done st ->
             loopInv ext config cache0 files (done ++ rest)
               (fold_left (organizeDir ext config (groupByDirectory files)) rest st)).
  { induction rest as [|d rest IH]; intros done st Hnd' Hinv; simpl.
    - rewrite app_nil_r. exact Hinv.
    - replace (done ++ d :: rest)%list with ((done ++ [d]) ++ rest)%list in *
        by (rewrite <- app_assoc; reflexivity).
      apply IH; [exact Hnd'|]. apply organizeDir_inv; [exact Hinv|].
      apply NoDup_app in Hnd' as (Hnd1 & _ & _).
      apply NoDup_app in Hnd1 as (_ & Hdis & _).
      intros Hin. apply (Hdis d); [apply list_elem_of_In, Hin|]. left. }
  apply (G order [] _ Hnd loopInv_start).
Qed.

End OrganizeLoop.

(** ** [OrganizeIntoAlbums]: the result *)

Lemma filteredAlbum_In (a r : Album.t) :
  In r (filteredAlbum a) ->
  Album.Name r = Album.Name a /\
  Album.Destination r = Album.Destination a /\
  Album.SourceDirs r = Album.SourceDirs a /\
  Album.Type_ r = Album.Type_ a /\
  Album.Files r = List.filter (needsMove (Album.Destination a)) (Album.Files a) /\
  Album.Files r <> [].
Proof.
  unfold filteredAlbum.
  destruct (List.filter _ (Album.Files a)) as [|f l] eqn:E; [intros []|].
  intros [<-|[]]. cbn. repeat split. discriminate.
Qed.

Lemma filteredAlbum_some (a : Album.t) :
  (exists f, In f (Album.Files a) /\ needsMove (Album.Destination a) f = true) <->
  exists r, In r (filteredAlbum a).
Proof.
  unfold filteredAlbum. split.
  - intros (f & Hf & Hm).
    destruct (List.filter _ (Album.Files a)) as [|f' l] eqn:E.
    + assert (H : In f (List.filter (needsMove (Album.Destination a)) (Album.Files a)))
        by (apply filter_In; auto).
      rewrite E in H. destruct H.
    + eexists. left. reflexivity.
  - destruct (List.filter _ (Album.Files a)) as [|f l] eqn:E; [intros [r []]|].
    intros _. exists f. apply filter_In. rewrite E. left. reflexivity.
Qed.

Lemma filter_none {A : Type} (p : A -> bool) (l : list A) :
  (forall x, In x l -> p x = false) -> List.filter p l = [].
Proof.
  induction l as [|x l IH]; intros H; [reflexivity|]. simpl.
  rewrite (H x (or_introl eq_refl)). apply IH. intros y Hy. apply H. right. exact Hy.
Qed.

Lemma filter_all {A : Type} (p : A -> bool) (l : list A) :
  (forall x, In x l -> p x = true) -> List.filter p l = l.
Proof.
  induction l as [|x l IH]; intros H; [reflexivity|]. simpl.
  rewrite (H x (or_introl eq_refl)). f_equal. apply IH. intros y Hy. apply H. right. exact Hy.
Qed.

(** The audio albums are no photo or video albums. *)
Lemma namedAlbums_music (n : string) (order : list string) (files : list MediaFile.t)
    (config : Config.t) :
  namedAlbums n (filterAlbumsWithNewFiles (organizeMusicFiles order files config)) = [].
Proof.
  apply filter_none. intros r Hr.
  apply in_flat_map in Hr as (a & Ha & Hr).
  apply filteredAlbum_In in Hr as (_ & _ & _ & Ht & _).
  unfold organizeMusicFiles in Ha. apply in_map_iff in Ha as (k & <- & _).
  rewrite Ht. reflexivity.
Qed.

(** In a list of albums with pairwise different names, the filtered
    albums of one name are what the filter leaves of the one album. *)
Lemma namedAlbums_unique (l : list Album.t) :
  (forall i j a b, l !! i = Some a -> l !! j = Some b ->
     Album.Name a = Album.Name b -> i = j) ->
  forall i a, l !! i = Some a -> isMusic (Album.Type_ a) = false ->
  namedAlbums (Album.Name a) (flat_map filteredAlbum l) = filteredAlbum a.
Proof.
  induction l as [|x l IH]; intros Huniq i a Ha Hty; [destruct i; discriminate|].
  cbn [flat_map]. unfold namedAlbums. rewrite List.filter_app.
  fold (namedAlbums (Album.Name a) (filteredAlbum x)).
  fold (namedAlbums (Album.Name a) (flat_map filteredAlbum l)).
  destruct i as [|i].
  - injection Ha as ->.
    replace (namedAlbums (Album.Name a) (flat_map filteredAlbum l)) with (@nil Album.t).
    + rewrite app_nil_r. apply filter_all. intros r Hr.
      apply filteredAlbum_In in Hr as (Hn & _ & _ & Ht & _).
      rewrite Ht, Hty, Hn, String.eqb_refl. reflexivity.
    + symmetry. apply filter_none. intros r Hr.
      apply in_flat_map in Hr as (b & Hb & Hr).
      apply filteredAlbum_In in Hr as (Hn & _).
      apply list_elem_of_In, list_elem_of_lookup in Hb as [j Hj].
      destruct (String.eqb (Album.Name r) (Album.Name a)) eqn:E; [|apply andb_false_r].
      apply String.eqb_eq in E. exfalso.
      specialize (Huniq 0%nat (S j) a b eq_refl Hj). rewrite <- E, Hn in Huniq.
      specialize (Huniq eq_refl). discriminate.
  - replace (namedAlbums (Album.Name a) (filteredAlbum x)) with (@nil Album.t).
    + apply (IH (fun i j a b Hi Hj E =>
                   eq_add_S _ _ (Huniq (S i) (S j) a b Hi Hj E)) i a Ha Hty).
    + symmetry. apply filter_none. intros r Hr.
      apply filteredAlbum_In in Hr as (Hn & _).
      destruct (String.eqb (Album.Name r) (Album.Name a)) eqn:E; [|apply andb_false_r].
      apply String.eqb_eq in E. exfalso.
      specialize (Huniq 0%nat (S i) x a eq_refl Ha). rewrite <- E, Hn in Huniq.
      specialize (Huniq eq_refl). discriminate.
Qed.

Section OrganizeResult.
Context (ext : external) (config : Config.t)
        (cache0 : option AlbumSuggestionCache) (files : list MediaFile.t)
        (dirOrder musicOrder : list string).
Hypothesis Horder : range_order dirOrder (groupByDirectory files).

Local Abbreviation planned := (albums (organizeLoop ext config cache0 dirOrder files)).
Local Abbreviation result :=
  (OrganizeIntoAlbums ext config cache0 dirOrder musicOrder files).

Lemma planned_inv :
  loopInv ext config cache0 files dirOrder (organizeLoop ext config cache0 dirOrder files).
Proof. apply organizeLoop_inv, Horder. Qed.

Lemma qualifies_In_order (d : string) : qualifies files d = true -> In d dirOrder.
Proof.
  intros Hq. apply (range_order_In dirOrder (groupByDirectory files) d Horder).
  rewrite groupByDirectory_lookup. unfold qualifies in Hq.
  destruct (List.filter (inDirectory d) files); [discriminate|discriminate].
Qed.

Lemma planned_unique (i j : nat) (a b : Album.t) :
  planned !! i = Some a -> planned !! j = Some b ->
  Album.Name a = Album.Name b -> i = j.
Proof.
  destruct planned_inv as (_ & I2 & _). intros Ha Hb E.
  destruct (I2 i a Ha) as (Hi & _), (I2 j b Hb) as (Hj & _).
  rewrite E in Hi. congruence.
Qed.

Lemma planned_sources (i : nat) (a : Album.t) (d : string) :
  planned !! i = Some a ->
  In d (Album.SourceDirs a) <->
  In d dirOrder /\ qualifies files d = true /\
  nameOfDir ext config cache0 files d = Album.Name a.
Proof.
  destruct planned_inv as (_ & I2 & _). intros Ha.
  destruct (I2 i a Ha) as (_ & Hs & _). rewrite Hs. unfold mergedDirs.
  rewrite filter_In, andb_true_iff, String.eqb_eq. tauto.
Qed.

(** The album planned for a directory that takes part. *)
Lemma planned_of_dir (d : string) :
  qualifies files d = true ->
  exists i a,
    planned !! i = Some a /\
    Album.Name a = nameOfDir ext config cache0 files d /\
    In d (Album.SourceDirs a) /\
    isMusic (Album.Type_ a) = false /\
    Album.Files a =
      flat_map (fun d => List.filter (inDirectory d) files) (Album.SourceDirs a).
Proof.
  intros Hq. pose proof (qualifies_In_order d Hq) as Hin.
  destruct planned_inv as (I1 & I2 & I3 & _).
  destruct (I3 d Hin Hq) as [i Hi]. destruct (I1 _ _ Hi) as (a & Ha & Hn).
  exists i, a. destruct (I2 i a Ha) as (_ & _ & Hf & Ht).
  repeat split; try assumption.
  apply (planned_sources i a d Ha). auto.
Qed.

(** The photo and video albums of the result are the planned albums
    that the filter keeps. *)
Lemma result_named (i : nat) (a : Album.t) :
  planned !! i = Some a ->
  namedAlbums (Album.Name a) result = filteredAlbum a.
Proof.
  intros Ha. destruct planned_inv as (_ & I2 & _).
  destruct (I2 i a Ha) as (_ & _ & _ & Ht).
  unfold OrganizeIntoAlbums, plannedAlbums, filterAlbumsWithNewFiles.
  rewrite List.flat_map_app. unfold namedAlbums at 1. rewrite List.filter_app.
  fold (namedAlbums (Album.Name a)
          (flat_map filteredAlbum (organizeMusicFiles musicOrder files config))).
  pose proof (namedAlbums_music (Album.Name a) musicOrder files config) as Hm.
  unfold filterAlbumsWithNewFiles in Hm. rewrite Hm, app_nil_r.
  apply (namedAlbums_unique planned planned_unique i a Ha Ht).
Qed.

Lemma result_from_planned (r : Album.t) :
  In r result -> isMusic (Album.Type_ r) = false ->
  exists i a, planned !! i = Some a /\ In r (filteredAlbum a).
Proof.
  unfold OrganizeIntoAlbums, plannedAlbums, filterAlbumsWithNewFiles.
  intros Hr Ht. apply in_flat_map in Hr as (a & Ha & Hr).
  apply in_app_or in Ha as [Ha|Ha].
  - apply list_elem_of_In, list_elem_of_lookup in Ha as [i Hi]. eauto.
  - exfalso. apply filteredAlbum_In in Hr as (_ & _ & _ & Ht' & _).
    unfold organizeMusicFiles in Ha. apply in_map_iff in Ha as (k & <- & _).
    rewrite Ht' in Ht. discriminate.
Qed.

Lemma planned_in_result (i : nat) (a r : Album.t) :
  planned !! i = Some a -> In r (filteredAlbum a) -> In r result.
Proof.
  intros Ha Hr. unfold OrganizeIntoAlbums, plannedAlbums, filterAlbumsWithNewFiles.
  apply in_flat_map. exists a. split; [|exact Hr].
  apply in_or_app. left. apply list_elem_of_In, list_elem_of_lookup. eauto.
Qed.

End OrganizeResult.

(** C8 (as stated) fails in its second half: a library directory with
    exactly three photos that an earlier run moved there and cached, and
    for which the naming service suggests the name of the directory,
    yields no album. *)
Lemma three_settled_files_no_album :
  List.length (List.filter (inDirectory "/lib/Photos/2020/Trip") settledTrip) = 3%nat /\
  OrganizeIntoAlbums tripService libConfig None ["/lib/Photos/2020/Trip"] []
                     settledTrip = [].
Proof. split; reflexivity. Qed.

(** C8 (amended): a directory with exactly two non-audio records is a
    source directory of no photo or video album of the result; for a
    directory with exactly three there is a planned album that lists it,
    and a photo or video album of the result lists the directory exactly
    when some record of the planned album is new or not yet at its
    destination, as is the case when a record of the directory is new. *)
Theorem album_threshold (ext : external) (config : Config.t)
    (cache0 : option AlbumSuggestionCache) (files : list MediaFile.t)
    (dirOrder musicOrder : list string) (d : string) :
  range_order dirOrder (groupByDirectory files) ->
  let result := OrganizeIntoAlbums ext config cache0 dirOrder musicOrder files in
  let listed := exists r, In r result /\ isMusic (Album.Type_ r) = false /\
                          In d (Album.SourceDirs r) in
  (List.length (List.filter (inDirectory d) files) = 2%nat -> ~ listed) /\
  (List.length (List.filter (inDirectory d) files) = 3%nat ->
   exists a,
     In a (albums (organizeLoop ext config cache0 dirOrder files)) /\
     In d (Album.SourceDirs a) /\
     (forall f, inDirectory d f = true -> In f files -> In f (Album.Files a)) /\
     ((exists f, In f (Album.Files a) /\ needsMove (Album.Destination a) f = true)
      <-> listed) /\
     ((exists f, In f files /\ inDirectory d f = true /\ MediaFile.IsNew f = true)
      -> listed)).
Proof.
  intros Hord result listed. split.
  - intros Hlen (r & Hr & Ht & Hd).
    destruct (result_from_planned ext config cache0 files dirOrder musicOrder r Hr Ht)
      as (i & a & Ha & Hra).
    apply filteredAlbum_In in Hra as (_ & _ & Hs & _). rewrite Hs in Hd.
    apply (planned_sources ext config cache0 files dirOrder Hord i a d Ha) in Hd
      as (_ & Hq & _).
    unfold qualifies in Hq. rewrite Hlen in Hq. discriminate.
  - intros Hlen.
    assert (Hq : qualifies files d = true) by (unfold qualifies; rewrite Hlen; reflexivity).
    destruct (planned_of_dir ext config cache0 files dirOrder Hord d Hq)
      as (i & a & Ha & Hn & Hd & Ht & Hf).
    assert (Hmem : forall f, inDirectory d f = true -> In f files -> In f (Album.Files a)).
    { intros f Hfd Hfin. rewrite Hf. apply in_flat_map. exists d. split; [exact Hd|].
      apply filter_In. auto. }
    assert (Hiff : (exists f, In f (Album.Files a) /\
                              needsMove (Album.Destination a) f = true) <-> listed).
    { rewrite filteredAlbum_some. split.
      - intros [r Hr]. exists r.
        pose proof (filteredAlbum_In a r Hr) as (_ & _ & Hs & Ht' & _).
        split; [|split].
        + apply (planned_in_result ext config cache0 files dirOrder musicOrder i a r Ha Hr).
        + rewrite Ht'. exact Ht.
        + rewrite Hs. exact Hd.
      - intros (r & Hr & Htr & Hdr).
        destruct (result_from_planned ext config cache0 files dirOrder musicOrder r Hr Htr)
          as (j & b & Hb & Hrb).
        pose proof (filteredAlbum_In b r Hrb) as (_ & _ & Hs & _). rewrite Hs in Hdr.
        apply (planned_sources ext config cache0 files dirOrder Hord j b d Hb) in Hdr
          as (_ & _ & Hnb).
        assert (i = j).
        { apply (planned_unique ext config cache0 files dirOrder Hord i j a b Ha Hb).
          congruence. }
        subst j. assert (a = b) by congruence. subst b. eauto. }
    exists a. split; [|split; [|split; [|split]]]; try assumption.
    + apply list_elem_of_In, list_elem_of_lookup. eauto.
    + intros (f & Hfin & Hfd & Hnew). apply Hiff. exists f. split; [auto|].
      unfold needsMove. rewrite Hnew. reflexivity.
Qed.

Lemma album_threshold_witness :
  exists r,
    In r (OrganizeIntoAlbums tripService libConfig None ["/src/Trip"] [] newTrip) /\
    isMusic (Album.Type_ r) = false /\ In "/src/Trip" (Album.SourceDirs r).
Proof.
  assert (Hord : range_order ["/src/Trip"] (groupByDirectory newTrip)).
  { apply range_order_dom; compute_done. }
  destruct (proj2 (album_threshold tripService libConfig None newTrip ["/src/Trip"] []
                     "/src/Trip" Hord) eq_refl) as (a & _ & _ & _ & _ & Hnew).
  apply Hnew. exists (photo "/src/Trip/d.jpg" true).
  split; [left; reflexivity|split; reflexivity].
Defined.

(** C9 (as stated) fails: a library directory and a new folder are given
    the same album name; the one album of that name in the result lists
    both directories, but the photos that already lie at the destination
    are not among its files. *)
Lemma merged_album_drops_settled_files :
  let files := (settledTrip ++ newTrip)%list in
  let dirs := ["/lib/Photos/2020/Trip"; "/src/Trip"] in
  nameOfDir tripService libConfig None files "/lib/Photos/2020/Trip"
  = nameOfDir tripService libConfig None files "/src/Trip" /\
  exists a,
    OrganizeIntoAlbums tripService libConfig None dirs [] files = [a] /\
    Album.SourceDirs a = dirs /\
    Album.Files a = newTrip /\
    exists f, In f files /\ inDirectory "/lib/Photos/2020/Trip" f = true /\
              ~ In f (Album.Files a).
Proof.
  cbv zeta. split; [reflexivity|]. eexists. split; [reflexivity|].
  split; [reflexivity|]. split; [reflexivity|].
  exists (photo "/lib/Photos/2020/Trip/a.jpg" false).
  split; [left; reflexivity|]. split; [reflexivity|].
  cbn. intros [H|[H|[H|[]]]]; discriminate H.
Qed.

(** C9 (amended): when two different directories that take part in album
    formation are given the same name, one planned album carries that
    name; its source directories are all the directories given the name,
    both among them, and its files are the records of its source
    directories.  The photo and video albums of that name in the result
    are what the final filter leaves of it: no album when no record is
    new or away from its destination, else one album with the same source
    directories and the records that are. *)
Theorem merged_album (ext : external) (config : Config.t)
    (cache0 : option AlbumSuggestionCache) (files : list MediaFile.t)
    (dirOrder musicOrder : list string) (d1 d2 : string) :
  range_order dirOrder (groupByDirectory files) ->
  d1 <> d2 ->
  qualifies files d1 = true -> qualifies files d2 = true ->
  nameOfDir ext config cache0 files d1 = nameOfDir ext config cache0 files d2 ->
  exists a,
    In a (albums (organizeLoop ext config cache0 dirOrder files)) /\
    Album.Name a = nameOfDir ext config cache0 files d1 /\
    (forall b, In b (albums (organizeLoop ext config cache0 dirOrder files)) ->
       Album.Name b = Album.Name a -> b = a) /\
    In d1 (Album.SourceDirs a) /\ In d2 (Album.SourceDirs a) /\
    (forall d, In d (Album.SourceDirs a) <->
       In d dirOrder /\ qualifies files d = true /\
       nameOfDir ext config cache0 files d = Album.Name a) /\
    Album.Files a =
      flat_map (fun d => List.filter (inDirectory d) files) (Album.SourceDirs a) /\
    namedAlbums (Album.Name a)
      (OrganizeIntoAlbums ext config cache0 dirOrder musicOrder files)
    = filteredAlbum a.
Proof.
  intros Hord Hne Hq1 Hq2 Hname.
  destruct (planned_of_dir ext config cache0 files dirOrder Hord d1 Hq1)
    as (i & a & Ha & Hn & Hd1 & Ht & Hf).
  exists a. split; [apply list_elem_of_In, list_elem_of_lookup; eauto|].
  split; [exact Hn|]. split; [|split; [exact Hd1|split; [|split; [|split]]]].
  - intros b Hb E. apply list_elem_of_In, list_elem_of_lookup in Hb as [j Hb].
    assert (j = i)
      by (apply (planned_unique ext config cache0 files dirOrder Hord j i b a Hb Ha E)).
    subst j. congruence.
  - apply (planned_sources ext config cache0 files dirOrder Hord i a d2 Ha).
    split; [apply (qualifies_In_order files dirOrder Hord), Hq2|]. split; [exact Hq2|].
    congruence.
  - intros d. apply (planned_sources ext config cache0 files dirOrder Hord i a d Ha).
  - exact Hf.
  - apply (result_named ext config cache0 files dirOrder musicOrder Hord i a Ha).
Qed.

Lemma merged_album_witness :
  exists a,
    In "/lib/Photos/2020/Trip" (Album.SourceDirs a) /\
    In "/src/Trip" (Album.SourceDirs a) /\
    namedAlbums (Album.Name a)
      (OrganizeIntoAlbums tripService libConfig None
         ["/lib/Photos/2020/Trip"; "/src/Trip"] [] (settledTrip ++ newTrip)%list)
    = filteredAlbum a.
Proof.
  assert (Hord : range_order ["/lib/Photos/2020/Trip"; "/src/Trip"]
                   (groupByDirectory (settledTrip ++ newTrip)%list)).
  { apply range_order_dom; compute_done. }
  destruct (merged_album tripService libConfig None (settledTrip ++ newTrip)%list
              ["/lib/Photos/2020/Trip"; "/src/Trip"] []
              "/lib/Photos/2020/Trip" "/src/Trip" Hord
              ltac:(discriminate) eq_refl eq_refl eq_refl)
    as (a & _ & _ & _ & H1 & H2 & _ & _ & H3).
  exists a. auto.
Defined.
